(** * secure-stream: AES-CTR relay with byte-range resynchronisation

    A shallow embedding of [stream.go] (package [secure_stream]) together
    with the parts of the Go standard library it calls ([strings],
    [strconv], [encoding/binary], [crypto/cipher], [net/http]), and the
    properties of the range parser, the counter resynchroniser and the
    relays that the specification states. *)

From Stdlib Require Import ZArith Lia List String Ascii DecimalString.
From Stdlib.Strings Require Import Byte.
From stdpp Require Import gmap strings list.

Open Scope Z_scope.

(** ** Machine integers and bytes *)

(** Go's [int64] and [uint64] are carried by [Z]; every operation that can
    leave the range writes its wrap-around out. *)
Definition uint64 (z : Z) : Z := z mod 2 ^ 64.
Definition int64 (z : Z) : Z := (z + 2 ^ 63) mod 2 ^ 64 - 2 ^ 63.
Definition is_int64 (z : Z) : Prop := - 2 ^ 63 <= z < 2 ^ 63.
Definition is_uint64 (z : Z) : Prop := 0 <= z < 2 ^ 64.

(** [uint64(b)] and [byte(v)] conversions. *)
Definition Z_of_byte (b : byte) : Z := Z.of_N (Byte.to_N b).
Definition byte_of_Z (z : Z) : byte :=
  default x00 (Byte.of_N (Z.to_N (z mod 256))).

#[global] Instance byte_inhabited : Inhabited byte := populate x00.

(** The value of a byte string read as a big-endian natural number. *)
Definition be_uint (l : list byte) : Z :=
  fold_left (fun acc b => acc * 256 + Z_of_byte b) l 0.

(** A Go call either returns or panics. *)
Inductive outcome (A : Type) : Type :=
| Return (a : A)
| Panic (msg : string).
Arguments Return {A} a.
Arguments Panic {A} msg.

(** ** encoding/binary: [binary.BigEndian] *)

Module BigEndian.

(** [Uint64(b)]: [_ = b[7]] is the bounds check, then the eight bytes are
    or-ed together, [b[0]] most significant. *)
Definition Uint64 (b : list byte) : outcome Z :=
  match b with
  | b0 :: b1 :: b2 :: b3 :: b4 :: b5 :: b6 :: b7 :: _ =>
      Return
        (Z.lor (Z.lor (Z.lor (Z.lor (Z.lor (Z.lor (Z.lor
           (Z_of_byte b7)
           (Z.shiftl (Z_of_byte b6) 8))
           (Z.shiftl (Z_of_byte b5) 16))
           (Z.shiftl (Z_of_byte b4) 24))
           (Z.shiftl (Z_of_byte b3) 32))
           (Z.shiftl (Z_of_byte b2) 40))
           (Z.shiftl (Z_of_byte b1) 48))
           (Z.shiftl (Z_of_byte b0) 56))
  | _ => Panic "index out of range [7]"
  end.

(** The eight bytes [PutUint64(b, v)] stores at [b[0..8)]. *)
Definition bytes_of_uint64 (v : Z) : list byte :=
  [ byte_of_Z (Z.shiftr v 56); byte_of_Z (Z.shiftr v 48);
    byte_of_Z (Z.shiftr v 40); byte_of_Z (Z.shiftr v 32);
    byte_of_Z (Z.shiftr v 24); byte_of_Z (Z.shiftr v 16);
    byte_of_Z (Z.shiftr v 8); byte_of_Z v ].

(** [PutUint64(b, v)]: bounds check on [b[7]], then the first eight bytes
    of [b] are overwritten; the rest of [b] stays. *)
Definition PutUint64 (b : list byte) (v : Z) : outcome (list byte) :=
  if (length b <? 8)%nat then Panic "index out of range [7]"
  else Return (bytes_of_uint64 v ++ drop 8 b).

End BigEndian.

(** ** The counter resynchroniser, on byte-string values *)

(** [make([]byte, n)] and [copy(dst, src)] on values: [copy] overwrites the
    first [min (len dst) (len src)] bytes of [dst]. *)
Definition make (n : nat) : list byte := replicate n x00.
Definition copy (dst src : list byte) : list byte :=
  take (Nat.min (length dst) (length src)) src
    ++ drop (Nat.min (length dst) (length src)) dst.

(** [s[lo:hi]] of a slice whose capacity equals its length. *)
Definition subslice (s : list byte) (lo hi : nat) : outcome (list byte) :=
  if ((hi <? lo) || (length s <? hi))%nat then Panic "slice bounds out of range"
  else Return (take (hi - lo) (drop lo s)).

(** Writing [bs] back through the sub-slice [s[lo:]]. *)
Definition write_at (s : list byte) (lo : nat) (bs : list byte) : list byte :=
  take lo s ++ bs ++ drop (lo + length bs) s.

Definition bind {A B} (m : outcome A) (k : A -> outcome B) : outcome B :=
  match m with
  | Return a => k a
  | Panic msg => Panic msg
  end.
Notation "'do' x <- m ; k" := (bind m (fun x => k))
  (at level 10, x name, m at level 100, k at level 200).

(** [adjustIVForOffset] (stream.go, lines 236-252). *)
Definition adjustIVForOffset (originalIV : list byte) (offset : Z)
  : outcome (list byte) :=
  if negb (length originalIV =? 16)%nat then Panic "IV must be 16 bytes."
  else
    let blockSize := 16 in
    let blockOffset := int64 (Z.quot offset (int64 blockSize)) in
    let newIV := make 16 in
    let newIV := copy newIV originalIV in
    do src <- subslice originalIV 8 16;
    do counter <- BigEndian.Uint64 src;
    let counter := uint64 (counter + uint64 blockOffset) in
    do dst <- subslice newIV 8 16;
    do dst' <- BigEndian.PutUint64 dst counter;
    Return (write_at newIV 8 dst').

(** ** Go's [error] values *)

Inductive strconv_err := ErrSyntax | ErrRange.

(** The dynamic types of the errors this package can return:
    [errors.New] and [fmt.Errorf] without a wrapping verb both build an
    [*errors.errorString]; [strconv] returns a [*strconv.NumError];
    [aes.NewCipher] a [aes.KeySizeError]; the HTTP client and the body
    reader return errors this package only passes on. *)
Inductive error :=
| errorString (s : string)
| NumError (Func Num : string) (Err : strconv_err)
| KeySizeError (n : nat)
| transportError (s : string).

(** ** Package [strings] *)

Module strings.

(** [s[lo:hi]] and [s[lo:]] on strings. *)
Definition slice (s : string) (lo hi : nat) : string := substring lo (hi - lo) s.
Definition slice_from (s : string) (lo : nat) : string :=
  substring lo (String.length s - lo) s.

(** [HasPrefix]: [len(s) >= len(prefix) && s[:len(prefix)] == prefix]. *)
Definition HasPrefix (s prefix : string) : bool :=
  (String.length prefix <=? String.length s)%nat
  && String.eqb (slice s 0 (String.length prefix)) prefix.

(** [TrimPrefix]: [s] without the leading [prefix], or [s] itself. *)
Definition TrimPrefix (s prefix : string) : string :=
  if HasPrefix s prefix then slice_from s (String.length prefix) else s.

(** [Index]: the index of the first instance of [substr] in [s], or -1. *)
Fixpoint Index (s substr : string) : Z :=
  if HasPrefix s substr then 0
  else
    match s with
    | EmptyString => -1
    | String _ s' => let i := Index s' substr in if i <? 0 then -1 else i + 1
    end.

(** [Count] for a one-byte [substr] ([bytealg.CountString]): the number of
    bytes of [s] equal to it.  A longer [substr] counts non-overlapping
    instances, scanning from the left. *)
Fixpoint count_from (fuel : nat) (s substr : string) : Z :=
  match fuel with
  | O => 0
  | S fuel' =>
      let i := Index s substr in
      if i <? 0 then 0
      else 1 + count_from fuel' (slice_from s (Z.to_nat i + String.length substr)) substr
  end.
Definition Count (s substr : string) : Z := count_from (String.length s) s substr.

(** The loop of [genSplit]: at most [n] cuts at the first instance of
    [sep], then the rest of the string is the last field. *)
Fixpoint genSplit_loop (n : nat) (s sep : string) : list string :=
  match n with
  | O => [s]
  | S n' =>
      let m := Index s sep in
      if m <? 0 then [s]
      else slice s 0 (Z.to_nat m)
             :: genSplit_loop n' (slice_from s (Z.to_nat m + String.length sep)) sep
  end.

(** [Split(s, sep) = genSplit(s, sep, 0, -1)] for a non-empty [sep]: the
    number of fields is [Count(s, sep) + 1].  With an empty [sep] Go
    explodes [s] into its UTF-8 sequences; the package only ever splits on
    a dash, and here an empty [sep] yields the bytes of [s] one by one. *)
Definition Split (s sep : string) : list string :=
  if String.eqb sep "" then map (fun c => String c "") (list_ascii_of_string s)
  else genSplit_loop (Z.to_nat (Count s sep)) s sep.

End strings.

(** ** Package [strconv] *)

Module strconv.

Definition maxUint64 : Z := 2 ^ 64 - 1.

(** [lower(c)]: [c | ('x' - 'X')]. *)
Definition lower (c : Z) : Z := Z.lor c 32.

Definition byte_val (c : ascii) : Z := Z.of_N (N_of_ascii c).

(** The digit loop of [ParseUint(s, 10, 64)]: [cutoff] is
    [maxUint64/10 + 1], [maxVal] is [1<<64 - 1]. *)
Fixpoint ParseUint_loop (s : string) (n : Z) : Z * option strconv_err :=
  match s with
  | EmptyString => (n, None)
  | String ch s' =>
      let c := byte_val ch in
      let base := 10 in
      let cutoff := maxUint64 / 10 + 1 in
      let maxVal := maxUint64 in
      let digit :=
        if (48 <=? c) && (c <=? 57) then Some (c - 48)
        else if (97 <=? lower c) && (lower c <=? 122) then Some (lower c - 97 + 10)
        else None in
      match digit with
      | None => (0, Some ErrSyntax)
      | Some d =>
          if d >=? base then (0, Some ErrSyntax)
          else if n >=? cutoff then (maxVal, Some ErrRange)
          else
            let n := uint64 (n * base) in
            let n1 := uint64 (n + d) in
            if (n1 <? n) || (n1 >? maxVal) then (maxVal, Some ErrRange)
            else ParseUint_loop s' n1
      end
  end.

(** [ParseUint(s, 10, 64)]. *)
Definition ParseUint (s : string) : Z * option strconv_err :=
  if String.eqb s "" then (0, Some ErrSyntax) else ParseUint_loop s 0.

(** [ParseInt(s, 10, 64)]: an optional sign, then [ParseUint]; a range
    error comes with the nearest representable value. *)
Definition ParseInt (s : string) : Z * option error :=
  match s with
  | EmptyString => (0, Some (NumError "ParseInt" s ErrSyntax))
  | String c0 rest =>
      let s0 := s in
      let '(neg, s) :=
        if Ascii.eqb c0 "+" then (false, rest)
        else if Ascii.eqb c0 "-" then (true, rest)
        else (false, s) in
      let '(un, err) := ParseUint s in
      match err with
      | Some ErrSyntax => (0, Some (NumError "ParseInt" s0 ErrSyntax))
      | _ =>
          let cutoff := 2 ^ 63 in
          if negb neg && (un >=? cutoff)
          then (int64 (cutoff - 1), Some (NumError "ParseInt" s0 ErrRange))
          else if neg && (un >? cutoff)
          then (- int64 cutoff, Some (NumError "ParseInt" s0 ErrRange))
          else
            let n := int64 un in
            let n := if neg then int64 (- n) else n in
            (n, None)
      end
  end.

End strconv.

(** ** The range parsers *)

(** [parseRangeOffset] (stream.go, lines 192-203). *)
Definition parseRangeOffset (rangeHeader : string) : Z * option error :=
  if negb (strings.HasPrefix rangeHeader "bytes=") then (0, None)
  else
    let rangePart := strings.TrimPrefix rangeHeader "bytes=" in
    let parts := strings.Split rangePart "-" in
    if negb (length parts =? 2)%nat
    then (0, Some (errorString "Invalid range format."))
    else strconv.ParseInt (nth 0 parts "").

(** [parseByteRange] (stream.go, lines 205-234); the result is
    [(start, length, err)]. *)
Definition parseByteRange (byteRange : string) (size : Z) : Z * Z * option error :=
  if String.eqb byteRange "" then (0, size, None)
  else if negb (strings.HasPrefix byteRange "bytes=")
  then (0, 0, Some (errorString "invalid range header"))
  else
    let rangeParts := strings.Split (strings.TrimPrefix byteRange "bytes=") "-" in
    if negb (length rangeParts =? 2)%nat
    then (0, 0, Some (errorString "invalid range format"))
    else
      let '(start, err) := strconv.ParseInt (nth 0 rangeParts "") in
      if err is Some _ then (0, 0, Some (errorString "invalid start byte"))
      else
        let '(end_, err) := strconv.ParseInt (nth 1 rangeParts "") in
        if err is Some _ then (0, 0, Some (errorString "invalid end byte"))
        else if (start >? end_) || (end_ >=? size)
        then (0, 0, Some (errorString "range out of bounds"))
        else
          let length := int64 (int64 (end_ - start) + 1) in
          (start, length, None).

(** ** Package [crypto/cipher]: blocks and counter mode *)

Module cipher.

(** The [cipher.Block] interface.  A block cipher under a fixed key is a
    permutation of the blocks: [Decrypt] undoes [Encrypt]. *)
Record Block := {
  BlockSize : nat;
  Encrypt : list byte -> list byte;
  Decrypt : list byte -> list byte;
  BlockSize_pos : (0 < BlockSize)%nat;
  Encrypt_length : forall src, length src = BlockSize -> length (Encrypt src) = BlockSize;
  Decrypt_Encrypt : forall src, length src = BlockSize -> Decrypt (Encrypt src) = src
}.

(** The [ctr] stream: the cipher, the counter block that is encrypted
    next, and the key-stream bytes generated but not yet used
    ([out[outUsed:]]; Go generates up to 512 bytes ahead, which no caller
    can observe, here one block at a time). *)
Record ctr := {
  b : Block;
  ctr_ : list byte;
  out : list byte
}.

(** [NewCTR]: the IV length must equal the block size. *)
Definition NewCTR (block : Block) (iv : list byte) : outcome ctr :=
  if negb (length iv =? BlockSize block)%nat
  then Panic "cipher.NewCTR: IV length must equal block size"
  else Return {| b := block; ctr_ := iv; out := [] |}.

(** The counter increment of [refill]:
    [for i := len(x.ctr) - 1; i >= 0; i-- { x.ctr[i]++; if x.ctr[i] != 0 { break } }]. *)
Fixpoint increment_loop (i : nat) (c : list byte) : list byte :=
  let c := <[ i := byte_of_Z (Z_of_byte (c !!! i) + 1) ]> c in
  if negb (Z_of_byte (c !!! i) =? 0) then c
  else
    match i with
    | O => c
    | S i' => increment_loop i' c
    end.
Definition increment (c : list byte) : list byte :=
  match length c with
  | O => c
  | S n => increment_loop n c
  end.

(** [refill]: encrypt the counter block into the buffer and step the
    counter. *)
Definition refill (x : ctr) : ctr :=
  {| b := b x; ctr_ := increment (ctr_ x); out := out x ++ Encrypt (b x) (ctr_ x) |}.

Definition xor_byte (x y : byte) : byte :=
  byte_of_Z (Z.lxor (Z_of_byte x) (Z_of_byte y)).

(** [XORKeyStream(dst, src)]: every byte of [src] is xor-ed with the next
    key-stream byte; the stream keeps its position between calls. *)
Fixpoint XORKeyStream (x : ctr) (src : list byte) : ctr * list byte :=
  match src with
  | [] => (x, [])
  | s :: src' =>
      let x := if out x is [] then refill x else x in
      match out x with
      | k :: out' =>
          let '(x', dst) :=
            XORKeyStream {| b := b x; ctr_ := ctr_ x; out := out' |} src' in
          (x', xor_byte s k :: dst)
      | [] => (x, [])
      end
  end.

(** The first [n] blocks of the key stream that starts at counter [c]. *)
Fixpoint keystream (block : Block) (n : nat) (c : list byte) : list (list byte) :=
  match n with
  | O => []
  | S n' => Encrypt block c :: keystream block n' (increment c)
  end.

End cipher.

(** ** Package [crypto/aes] *)

Module aes.

(** AES itself is a parameter: one block cipher of block size 16 per key. *)
Class AES := {
  cipher_of_key : list byte -> cipher.Block;
  aes_BlockSize : forall key, cipher.BlockSize (cipher_of_key key) = 16%nat
}.

(** [aes.NewCipher]: the key must be 16, 24 or 32 bytes long. *)
Definition NewCipher `{AES} (key : list byte) : cipher.Block + error :=
  let k := length key in
  if (k =? 16)%nat || (k =? 24)%nat || (k =? 32)%nat
  then inl (cipher_of_key key)
  else inr (KeySizeError k).

End aes.

(** ** Package [net/http]: headers and the response writer *)

Module http.

Definition StatusOK : Z := 200.
Definition StatusPartialContent : Z := 206.

(** [http.Header] is a [map[string][]string].  Every key this package
    uses is already in canonical form, so canonicalisation is the
    identity here. *)
Definition Header := gmap string (list string).
Definition Header_Set (h : Header) (key value : string) : Header :=
  <[ key := [value] ]> h.
Definition Header_Get (h : Header) (key : string) : string :=
  match h !! key with
  | Some (v :: _) => v
  | _ => ""
  end.

(** What a relay does to its [http.ResponseWriter], call by call. *)
Inductive call :=
| SetHeader (key value : string)
| WriteHeader (statusCode : Z)
| Write (p : list byte).

(** The sink is the log of the calls made on it, oldest first. *)
Definition ResponseWriter := list call.

(** What the client receives.  [WriteHeader] commits the status and a
    snapshot of the header map; setting a header afterwards changes the
    map but no longer the response; a [Write] before any [WriteHeader]
    commits with [StatusOK] first. *)
Record response := {
  committed : option (Z * Header);
  header_map : Header;
  body : list byte
}.
Definition NewRecorder : response :=
  {| committed := None; header_map := ∅; body := [] |}.
Definition commit (r : response) (code : Z) : response :=
  if committed r is Some _ then r
  else {| committed := Some (code, header_map r);
          header_map := header_map r; body := body r |}.
Definition apply_call (r : response) (c : call) : response :=
  match c with
  | SetHeader k v =>
      {| committed := committed r;
         header_map := Header_Set (header_map r) k v; body := body r |}
  | WriteHeader code => commit r code
  | Write p =>
      let r := commit r StatusOK in
      {| committed := committed r; header_map := header_map r;
         body := body r ++ p |}
  end.
Definition response_of (w : ResponseWriter) : response :=
  fold_left apply_call w NewRecorder.

(** A request, and the response of the upstream server.  The body is what
    successive [Read] calls deliver, and the error, if any, that ends it
    instead of [io.EOF]. *)
Record Request := {
  Method : string;
  URL : string;
  ReqHeader : Header
}.
Record Reader := {
  chunks : list (list byte);
  read_err : option error
}.
Record Response := {
  StatusCode : Z;
  RespHeader : Header;
  ContentLength : Z;
  Body : Reader
}.

(** The outside world of the remote relays: which URLs [NewRequest]
    rejects, what [DefaultClient.Do] answers, and [fmt.Sscanf] on the
    format ["bytes %d-%d/%d"]. *)
Class Client := {
  NewRequest_err : string -> option error;
  Do : Request -> Response + error;
  Sscanf_content_range : string -> option (Z * Z * Z)
}.

Definition NewRequest `{Client} (method url : string) : Request + error :=
  match NewRequest_err url with
  | Some err => inr err
  | None => inl {| Method := method; URL := url; ReqHeader := ∅ |}
  end.

End http.

(** ** Package [io] *)

Module io.

(** [io.NewSectionReader(data, off, n)] over an in-memory [data]: the
    bytes [data[off : off+n]], cut at the end of [data], delivered in
    reads of at most 32 KiB (the buffer of [io.Copy]). *)
Definition bufSize : nat := Z.to_nat (32 * 1024).
Fixpoint chunks_of (fuel : nat) (l : list byte) : list (list byte) :=
  match fuel with
  | O => []
  | S fuel' =>
      match l with
      | [] => []
      | _ => take bufSize l :: chunks_of fuel' (drop bufSize l)
      end
  end.
Definition section (data : list byte) (off n : Z) : list byte :=
  take (Z.to_nat n) (drop (Z.to_nat off) data).
Definition NewSectionReader (data : list byte) (off n : Z) : http.Reader :=
  let bytes := section data off n in
  {| http.chunks := chunks_of (length bytes) bytes; http.read_err := None |}.

(** [io.Copy(w, &cipher.StreamReader{S: stream, R: r})]: each read is
    xor-ed with the key stream and, when it is not empty, written to the
    sink; the copy ends with the reader's error (nil at end of file).
    The sink accepts every write, as [httptest.ResponseRecorder] does. *)
Fixpoint copy_chunks (w : http.ResponseWriter) (stream : cipher.ctr)
    (cs : list (list byte)) : http.ResponseWriter * cipher.ctr :=
  match cs with
  | [] => (w, stream)
  | c :: cs' =>
      let '(stream, dst) := cipher.XORKeyStream stream c in
      let w := if c is [] then w else w ++ [http.Write dst] in
      copy_chunks w stream cs'
  end.
Definition Copy (w : http.ResponseWriter) (stream : cipher.ctr) (r : http.Reader)
  : http.ResponseWriter * option error :=
  (fst (copy_chunks w stream (http.chunks r)), http.read_err r).

End io.

(** [fmt.Sprintf("%d", n)]. *)
Definition itoa (n : Z) : string := NilZero.string_of_int (Z.to_int n).

(** ** The relays *)

Section Relays.

Context `{AES : aes.AES} `{Client : http.Client}.

(** A relay leaves the sink in some state and either returns its [error]
    result or panics.  The deferred [resp.Body.Close()] of the remote
    relays does nothing to the sink and is left out. *)
Definition relay_result : Type := http.ResponseWriter * outcome (option error).

(** [StreamFromUrl] (stream.go, lines 15-40). *)
Definition StreamFromUrl (w : http.ResponseWriter) (fileUrl : string)
    (key iv : list byte) : relay_result :=
  match http.NewRequest "GET" fileUrl with
  | inr err => (w, Return (Some err))
  | inl req =>
  match http.Do req with
  | inr err => (w, Return (Some err))
  | inl resp =>
  match aes.NewCipher key with
  | inr err => (w, Return (Some err))
  | inl block =>
  match cipher.NewCTR block iv with
  | Panic msg => (w, Panic msg)
  | Return stream =>
      let w := w ++ [http.WriteHeader http.StatusOK] in
      let w := w ++ [http.SetHeader "Content-Type" "application/octet-stream"] in
      let '(w, err) := io.Copy w stream (http.Body resp) in
      (w, Return err)
  end end end end.

(** [StreamFromUrlWithRange] (stream.go, lines 84-142). *)
Definition StreamFromUrlWithRange (w : http.ResponseWriter) (fileUrl : string)
    (key iv : list byte) (byteRange : string) : relay_result :=
  match http.NewRequest "GET" fileUrl with
  | inr err => (w, Return (Some err))
  | inl req =>
  let req :=
    if negb (String.eqb byteRange "")
    then {| http.Method := http.Method req; http.URL := http.URL req;
            http.ReqHeader := http.Header_Set (http.ReqHeader req) "Range" byteRange |}
    else req in
  match http.Do req with
  | inr err => (w, Return (Some err))
  | inl resp =>
  let totalSize :=
    let cr := http.Header_Get (http.RespHeader resp) "Content-Range" in
    if negb (String.eqb cr "") then
      match http.Sscanf_content_range cr with
      | Some (_, _, size) => size
      | None => 0
      end
    else
      let cl := http.Header_Get (http.RespHeader resp) "Content-Length" in
      if negb (String.eqb cl "") then fst (strconv.ParseInt cl) else 0 in
  let '(offset, err) := parseRangeOffset byteRange in
  match err with
  | Some err => (w, Return (Some err))
  | None =>
  match adjustIVForOffset iv offset with
  | Panic msg => (w, Panic msg)
  | Return adjustedIV =>
  match aes.NewCipher key with
  | inr err => (w, Return (Some err))
  | inl block =>
  match cipher.NewCTR block adjustedIV with
  | Panic msg => (w, Panic msg)
  | Return stream =>
      let w :=
        if negb (String.eqb byteRange "")
           && (http.StatusCode resp =? http.StatusPartialContent)
        then
          let chunkLen := http.ContentLength resp in
          let end_ := int64 (int64 (offset + chunkLen) - 1) in
          let w := w ++ [http.SetHeader "Content-Range"
                     ("bytes " ++ itoa offset ++ "-" ++ itoa end_ ++ "/" ++ itoa totalSize)] in
          let w := w ++ [http.SetHeader "Content-Length" (itoa chunkLen)] in
          let w := w ++ [http.SetHeader "Accept-Ranges" "bytes"] in
          let w := w ++ [http.SetHeader "Content-Type" "application/pdf"] in
          w ++ [http.WriteHeader http.StatusPartialContent]
        else
          let w := w ++ [http.SetHeader "Content-Length" (itoa totalSize)] in
          let w := w ++ [http.SetHeader "Accept-Ranges" "bytes"] in
          let w := w ++ [http.SetHeader "Content-Type" "application/pdf"] in
          w ++ [http.WriteHeader http.StatusOK] in
      let '(w, err) := io.Copy w stream (http.Body resp) in
      (w, Return err)
  end end end end end end.

(** [StreamFromByte] (stream.go, lines 144-160). *)
Definition StreamFromByte (w : http.ResponseWriter) (data : list byte) (size : Z)
    (key iv : list byte) : relay_result :=
  match aes.NewCipher key with
  | inr err => (w, Return (Some err))
  | inl block =>
  match cipher.NewCTR block iv with
  | Panic msg => (w, Panic msg)
  | Return stream =>
      let sectionReader := io.NewSectionReader data 0 size in
      let w := w ++ [http.WriteHeader http.StatusOK] in
      let w := w ++ [http.SetHeader "Content-Type" "application/octet-stream"] in
      let '(w, err) := io.Copy w stream sectionReader in
      (w, Return err)
  end end.

(** [StreamFromByteWithRange] (stream.go, lines 162-190). *)
Definition StreamFromByteWithRange (w : http.ResponseWriter) (data : list byte)
    (size : Z) (key iv : list byte) (byteRange : string) : relay_result :=
  let '(offset, length, err) := parseByteRange byteRange size in
  match err with
  | Some err => (w, Return (Some err))
  | None =>
  match adjustIVForOffset iv offset with
  | Panic msg => (w, Panic msg)
  | Return adjustedIV =>
  match aes.NewCipher key with
  | inr err => (w, Return (Some err))
  | inl block =>
  match cipher.NewCTR block adjustedIV with
  | Panic msg => (w, Panic msg)
  | Return stream =>
      let sectionReader := io.NewSectionReader data offset length in
      let w :=
        if negb (String.eqb byteRange "") then
          let w := w ++ [http.WriteHeader http.StatusPartialContent] in
          w ++ [http.SetHeader "Content-Range"
                  ("bytes " ++ itoa offset ++ "-"
                     ++ itoa (int64 (int64 (offset + length) - 1)) ++ "/" ++ itoa size)]
        else w ++ [http.WriteHeader http.StatusOK] in
      let w := w ++ [http.SetHeader "Content-Type" "application/octet-stream"] in
      let '(w, err) := io.Copy w stream sectionReader in
      (w, Return err)
  end end end end.

End Relays.

(** ** The counter resynchroniser, on slices in memory *)

(** [adjustIVForOffset] takes and returns [[]byte] slices, which share
    their backing arrays.  This second embedding keeps the arrays in a
    heap, so that what the function writes, and where, can be stated. *)
Module Mem.

Abbreviation loc := nat.

(** A slice header: the backing array, the offset of the slice in it,
    the length and the capacity. *)
Record slice := {
  base : loc;
  off : nat;
  len : nat;
  cap : nat
}.

Abbreviation heap := (gmap loc (list byte)).

(** A computation on the heap. *)
Definition M (A : Type) : Type := heap -> outcome (A * heap).
Definition ret {A} (a : A) : M A := fun h => Return (a, h).
Definition panic {A} (msg : string) : M A := fun _ => Panic msg.
Definition mbind {A B} (m : M A) (k : A -> M B) : M B :=
  fun h =>
    match m h with
    | Return (a, h') => k a h'
    | Panic msg => Panic msg
    end.
Definition lift {A} (o : outcome A) : M A :=
  fun h =>
    match o with
    | Return a => Return (a, h)
    | Panic msg => Panic msg
    end.
Notation "'run' x <- m ; k" := (mbind m (fun x => k))
  (at level 10, x name, m at level 100, k at level 200).

(** The bytes a slice denotes. *)
Definition contents (h : heap) (s : slice) : list byte :=
  match h !! base s with
  | Some a => take (len s) (drop (off s) a)
  | None => []
  end.

(** A slice is valid when its backing array is allocated and holds its
    whole capacity. *)
Definition valid (h : heap) (s : slice) : Prop :=
  exists a, h !! base s = Some a
            /\ (off s + cap s <= length a)%nat /\ (len s <= cap s)%nat.

Definition load (s : slice) : M (list byte) :=
  fun h => Return (contents h s, h).

(** Storing [bs] at the start of the slice [s]. *)
Definition store (s : slice) (bs : list byte) : M unit :=
  fun h =>
    match h !! base s with
    | Some a => Return (tt, <[ base s := write_at a (off s) bs ]> h)
    | None => Panic "invalid memory address or nil pointer dereference"
    end.

(** [make([]byte, n)]: a fresh zeroed array. *)
Definition make (n : nat) : M slice :=
  fun h =>
    let l := fresh (dom h) in
    Return ({| base := l; off := 0; len := n; cap := n |},
            <[ l := replicate n x00 ]> h).

(** [copy(dst, src)]: the first [min(len(dst), len(src))] bytes. *)
Definition copy (dst src : slice) : M nat :=
  let n := Nat.min (len dst) (len src) in
  run bs <- load src;
  run _ <- store dst (take n bs);
  ret n.

(** [s[lo:hi]]. *)
Definition reslice (s : slice) (lo hi : nat) : M slice :=
  if ((hi <? lo) || (cap s <? hi))%nat then panic "slice bounds out of range"
  else ret {| base := base s; off := off s + lo; len := hi - lo; cap := cap s - lo |}.

Definition Uint64 (b : slice) : M Z :=
  run bs <- load b;
  lift (BigEndian.Uint64 bs).

Definition PutUint64 (b : slice) (v : Z) : M unit :=
  if (len b <? 8)%nat then panic "index out of range [7]"
  else store b (BigEndian.bytes_of_uint64 v).

(** [adjustIVForOffset] (stream.go, lines 236-252), statement by
    statement. *)
Definition adjustIVForOffset (originalIV : slice) (offset : Z) : M slice :=
  if negb (len originalIV =? 16)%nat then panic "IV must be 16 bytes."
  else
    let blockSize := 16 in
    let blockOffset := int64 (Z.quot offset (int64 blockSize)) in
    run newIV <- make 16;
    run _ <- copy newIV originalIV;
    run src <- reslice originalIV 8 16;
    run counter <- Uint64 src;
    let counter := uint64 (counter + uint64 blockOffset) in
    run dst <- reslice newIV 8 16;
    run _ <- PutUint64 dst counter;
    ret newIV.

End Mem.

(** ** The vocabulary of the properties *)

(** The number of dashes of a string, and the strings without one. *)
Fixpoint dashes (s : string) : nat :=
  match s with
  | EmptyString => 0
  | String c s' => (if Ascii.eqb c "-" then 1 else 0) + dashes s'
  end.
Definition no_dash (s : string) : Prop := dashes s = 0%nat.

(** The fields of a split joined by dashes again. *)
Fixpoint join_dash (l : list string) : string :=
  match l with
  | [] => ""
  | [x] => x
  | x :: l' => (x ++ "-" ++ join_dash l')%string
  end.

(** What the specification calls the single-range form
    [bytes=<start>-<end>]: the prefix, then two fields with no dash in
    them, separated by one dash, each of which [strconv.ParseInt] reads
    as an integer. *)
Definition single_range_form (header : string) (start end_ : Z) : Prop :=
  exists s e : string,
    header = ("bytes=" ++ s ++ "-" ++ e)%string
    /\ no_dash s /\ no_dash e
    /\ strconv.ParseInt s = (start, None)
    /\ strconv.ParseInt e = (end_, None).

(** The error values of [parseByteRange] that report a malformed header,
    and the one that reports bounds. *)
Definition InvalidRangeFormat (e : error) : Prop :=
  e = errorString "invalid range header"
  \/ e = errorString "invalid range format"
  \/ e = errorString "invalid start byte"
  \/ e = errorString "invalid end byte".
Definition RangeOutOfBounds (e : error) : Prop :=
  e = errorString "range out of bounds".

(** The key lengths [aes.NewCipher] accepts. *)
Definition valid_key (key : list byte) : Prop :=
  length key = 16%nat \/ length key = 24%nat \/ length key = 32%nat.

(** The invariant of a [ctr] stream: the counter is one block long. *)
Definition ctr_wf (x : cipher.ctr) : Prop :=
  length (cipher.ctr_ x) = cipher.BlockSize (cipher.b x).

(** The calls a relay made on a sink that held [w] before. *)
Definition emitted {A} (w : http.ResponseWriter) (r : http.ResponseWriter * A)
  : list http.call :=
  drop (length w) (fst r).

Definition is_Write (c : http.call) : Prop := exists p, c = http.Write p.

(** No header is set once the status and header block is committed, by
    [WriteHeader] or by a first [Write]. *)
Fixpoint headers_first (is_committed : bool) (w : http.ResponseWriter) : bool :=
  match w with
  | [] => true
  | http.SetHeader _ _ :: w' => negb is_committed && headers_first is_committed w'
  | http.WriteHeader _ :: w' => headers_first true w'
  | http.Write _ :: w' => headers_first true w'
  end.

(** The headers the client receives. *)
Definition committed_header (w : http.ResponseWriter) : http.Header :=
  match http.committed (http.response_of w) with
  | Some (_, h) => h
  | None => ∅
  end.

(** The request [StreamFromUrlWithRange] sends upstream: the range header
    goes out as it came in, and only when it is not empty. *)
Definition range_request (fileUrl byteRange : string) : http.Request :=
  {| http.Method := "GET"; http.URL := fileUrl;
     http.ReqHeader := if String.eqb byteRange "" then ∅
                       else http.Header_Set ∅ "Range" byteRange |}.

(** ** Test doubles and test inputs *)

(** Stand-ins for the collaborators, after stream_test.go: a block cipher
    of block size 16 (the identity permutation; any permutation would
    do), and the mock upstream server of [TestStreamFromUrlWithRange]. *)
Definition identity_block : cipher.Block :=
  {| cipher.BlockSize := 16;
     cipher.Encrypt := fun src => src;
     cipher.Decrypt := fun src => src;
     cipher.BlockSize_pos := Nat.lt_0_succ 15;
     cipher.Encrypt_length := fun _ H => H;
     cipher.Decrypt_Encrypt := fun _ _ => eq_refl |}.

Definition test_aes : aes.AES :=
  {| aes.cipher_of_key := fun _ => identity_block;
     aes.aes_BlockSize := fun _ => eq_refl |}.

Definition bytes_of_string (s : string) : list byte :=
  map byte_of_ascii (list_ascii_of_string s).

Definition sourceContent : list byte := bytes_of_string "HelloSecureStreamingWorld!".
Definition examplekey : list byte := bytes_of_string "examplekey123456examplekey123456".

Definition mockServer : http.Client :=
  {| http.NewRequest_err := fun _ => None;
     http.Do := fun req =>
       if String.eqb (http.Header_Get (http.ReqHeader req) "Range") "bytes=6-25"
       then inl {| http.StatusCode := http.StatusPartialContent;
                   http.RespHeader :=
                     http.Header_Set (http.Header_Set ∅ "Content-Range" "bytes 6-25/26")
                       "Content-Length" "20";
                   http.ContentLength := 20;
                   http.Body := {| http.chunks := [take 20 (drop 6 sourceContent)];
                                   http.read_err := None |} |}
       else inl {| http.StatusCode := http.StatusOK;
                   http.RespHeader := http.Header_Set ∅ "Content-Length" "26";
                   http.ContentLength := 26;
                   http.Body := {| http.chunks := [sourceContent];
                                   http.read_err := None |} |};
     http.Sscanf_content_range := fun s =>
       if String.eqb s "bytes 6-25/26" then Some (6, 25, 26) else None |}.

(** The two answers of [mockServer]. *)
Definition partialReply : http.Response :=
  {| http.StatusCode := http.StatusPartialContent;
     http.RespHeader :=
       http.Header_Set (http.Header_Set ∅ "Content-Range" "bytes 6-25/26")
         "Content-Length" "20";
     http.ContentLength := 20;
     http.Body := {| http.chunks := [take 20 (drop 6 sourceContent)];
                     http.read_err := None |} |}.
Definition fullReply : http.Response :=
  {| http.StatusCode := http.StatusOK;
     http.RespHeader := http.Header_Set ∅ "Content-Length" "26";
     http.ContentLength := 26;
     http.Body := {| http.chunks := [sourceContent]; http.read_err := None |} |}.

(** The IV of [TestAdjustIVForOffset], [00 .. 00 01], and a heap that
    holds it in one array. *)
Definition test_iv : list byte :=
  [x00; x00; x00; x00; x00; x00; x00; x00; x00; x00; x00; x00; x00; x00; x00; x01].
Definition test_heap : gmap nat (list byte) := {[ 0%nat := test_iv ]}.
Definition test_slice : Mem.slice :=
  {| Mem.base := 0; Mem.off := 0; Mem.len := 16; Mem.cap := 16 |}.

(** An IV whose low eight bytes are all ones: the next block carries into
    the high half of the counter. *)
Definition iv_carry : list byte :=
  [x00; x00; x00; x00; x00; x00; x00; x00; xff; xff; xff; xff; xff; xff; xff; xff].

(** * Properties *)

(** ** Bytes and big-endian numbers *)

Lemma Z_of_byte_range b : 0 <= Z_of_byte b < 256.
Proof.
  unfold Z_of_byte. pose proof (Byte.to_N_bounded b). lia.
Qed.

Lemma Z_of_byte_of_Z z : Z_of_byte (byte_of_Z z) = z mod 256.
Proof.
  unfold Z_of_byte, byte_of_Z.
  pose proof (Z.mod_pos_bound z 256 ltac:(lia)) as Hr.
  destruct (Byte.of_N (Z.to_N (z mod 256))) as [y|] eqn:E.
  - apply Byte.to_of_N in E. simpl. rewrite E. lia.
  - apply Byte.of_N_None_iff in E. lia.
Qed.

Lemma byte_of_Z_of_byte b : byte_of_Z (Z_of_byte b) = b.
Proof.
  unfold byte_of_Z, Z_of_byte.
  pose proof (Byte.to_N_bounded b).
  rewrite Z.mod_small by lia. rewrite N2Z.id, Byte.of_to_N. reflexivity.
Qed.

Lemma Z_of_byte_inj a b : Z_of_byte a = Z_of_byte b -> a = b.
Proof.
  intros H. rewrite <- (byte_of_Z_of_byte a), <- (byte_of_Z_of_byte b). now rewrite H.
Qed.

Lemma lor_shiftl_add lo hi k :
  0 <= k -> 0 <= lo < 2 ^ k -> Z.lor lo (Z.shiftl hi k) = lo + hi * 2 ^ k.
Proof.
  intros Hk Hlo. rewrite Z.shiftl_mul_pow2 by lia.
  rewrite <- Z.lxor_lor.
  2:{ apply Z.bits_inj'. intros n Hn. rewrite Z.land_spec, Z.bits_0.
      destruct (Z.lt_ge_cases n k).
      - rewrite Z.mul_pow2_bits_low by lia. apply andb_false_r.
      - assert (Z.testbit lo n = false) as ->; [|reflexivity].
        destruct (Z.eq_dec lo 0) as [->|]; [apply Z.bits_0|].
        apply Z.bits_above_log2; [lia|].
        apply Z.log2_lt_pow2; try lia. apply Z.lt_le_trans with (2^k); try lia.
        apply Z.pow_le_mono_r; lia. }
  rewrite <- Z.add_nocarry_lxor; [reflexivity|].
  apply Z.bits_inj'. intros n Hn. rewrite Z.land_spec, Z.bits_0.
  destruct (Z.lt_ge_cases n k).
  - rewrite Z.mul_pow2_bits_low by lia. apply andb_false_r.
  - assert (Z.testbit lo n = false) as ->; [|reflexivity].
    destruct (Z.eq_dec lo 0) as [->|]; [apply Z.bits_0|].
    apply Z.bits_above_log2; [lia|].
    apply Z.log2_lt_pow2; try lia. apply Z.lt_le_trans with (2^k); try lia.
    apply Z.pow_le_mono_r; lia.
Qed.

Lemma be_uint_fold l acc :
  fold_left (fun acc b => acc * 256 + Z_of_byte b) l acc
  = acc * 256 ^ Z.of_nat (length l) + be_uint l.
Proof.
  unfold be_uint. revert acc. induction l as [|x l IH]; intros acc.
  - simpl. lia.
  - cbn [fold_left length]. rewrite IH, (IH (0 * 256 + _)).
    rewrite Nat2Z.inj_succ, Z.pow_succ_r by lia. lia.
Qed.

Lemma be_uint_app l1 l2 :
  be_uint (l1 ++ l2) = be_uint l1 * 256 ^ Z.of_nat (length l2) + be_uint l2.
Proof.
  unfold be_uint at 1. rewrite fold_left_app. fold (be_uint l1). apply be_uint_fold.
Qed.

Lemma be_uint_cons x l :
  be_uint (x :: l) = Z_of_byte x * 256 ^ Z.of_nat (length l) + be_uint l.
Proof. apply (be_uint_app [x] l). Qed.

Lemma be_uint_range l : 0 <= be_uint l < 256 ^ Z.of_nat (length l).
Proof.
  induction l as [|x l IH].
  - cbn. lia.
  - rewrite be_uint_cons. cbn [length]. rewrite Nat2Z.inj_succ, Z.pow_succ_r by lia.
    pose proof (Z_of_byte_range x). nia.
Qed.

Lemma be_uint_inj l1 l2 :
  length l1 = length l2 -> be_uint l1 = be_uint l2 -> l1 = l2.
Proof.
  revert l2. induction l1 as [|x l1 IH]; intros [|y l2] Hlen Heq; try discriminate; [reflexivity|].
  injection Hlen as Hlen. rewrite !be_uint_cons, <- Hlen in Heq.
  pose proof (be_uint_range l1) as R1. pose proof (be_uint_range l2) as R2.
  rewrite <- Hlen in R2.
  pose proof (Z_of_byte_range x). pose proof (Z_of_byte_range y).
  assert (Z_of_byte x = Z_of_byte y) as Hxy by nia.
  f_equal; [now apply Z_of_byte_inj|].
  apply IH; [assumption|]. rewrite Hxy in Heq. lia.
Qed.

Ltac eval_pow :=
  repeat match goal with
         | |- context [Z.pow (Zpos ?b) (Zpos ?k)] =>
             let v := eval vm_compute in (Z.pow (Zpos b) (Zpos k)) in
             change (Z.pow (Zpos b) (Zpos k)) with v
         end.

Lemma Uint64_be_uint bs :
  (8 <= length bs)%nat -> BigEndian.Uint64 bs = Return (be_uint (take 8 bs)).
Proof.
  intros Hlen.
  destruct bs as [|b0 [|b1 [|b2 [|b3 [|b4 [|b5 [|b6 [|b7 rest]]]]]]]]; simpl in Hlen; try lia.
  cbn [BigEndian.Uint64]. f_equal.
  pose proof (Z_of_byte_range b0). pose proof (Z_of_byte_range b1).
  pose proof (Z_of_byte_range b2). pose proof (Z_of_byte_range b3).
  pose proof (Z_of_byte_range b4). pose proof (Z_of_byte_range b5).
  pose proof (Z_of_byte_range b6). pose proof (Z_of_byte_range b7).
  rewrite (lor_shiftl_add _ _ 8) by lia.
  rewrite (lor_shiftl_add _ _ 16) by lia.
  rewrite (lor_shiftl_add _ _ 24) by lia.
  rewrite (lor_shiftl_add _ _ 32) by lia.
  rewrite (lor_shiftl_add _ _ 40) by lia.
  rewrite (lor_shiftl_add _ _ 48) by lia.
  rewrite (lor_shiftl_add _ _ 56) by lia.
  unfold be_uint. cbn [fold_left firstn]. rewrite take_0. cbn [fold_left]. eval_pow. lia.
Qed.

Lemma be_uint_bytes_of_uint64 v :
  be_uint (BigEndian.bytes_of_uint64 v) = v mod 2 ^ 64.
Proof.
  unfold BigEndian.bytes_of_uint64, be_uint. cbn [fold_left].
  rewrite !Z_of_byte_of_Z, !Z.shiftr_div_pow2 by lia. eval_pow.
  Zify.zify. Z.to_euclidean_division_equations. lia.
Qed.

(** ** The counter resynchroniser on values *)

Lemma copy_make_16 iv : length iv = 16%nat -> copy (make 16) iv = iv.
Proof.
  intros Hlen. unfold copy, make. rewrite length_replicate, Hlen.
  change (Nat.min 16 16) with 16%nat.
  rewrite <- Hlen at 1. rewrite firstn_all.
  rewrite drop_ge by (rewrite length_replicate; lia). apply app_nil_r.
Qed.

Lemma subslice_8_16 iv :
  length iv = 16%nat -> subslice iv 8 16 = Return (drop 8 iv).
Proof.
  intros Hlen. unfold subslice. rewrite Hlen. cbn [Nat.ltb Nat.leb orb].
  f_equal. apply take_ge. rewrite length_drop. lia.
Qed.

(** The closed form of the resynchroniser on a 16-byte IV. *)
Lemma adjustIVForOffset_eq iv offset :
  length iv = 16%nat ->
  adjustIVForOffset iv offset
  = Return (take 8 iv ++ BigEndian.bytes_of_uint64
              (uint64 (be_uint (drop 8 iv) + uint64 (int64 (Z.quot offset (int64 16)))))).
Proof.
  intros Hlen. unfold adjustIVForOffset. rewrite Hlen. cbn [Nat.eqb negb].
  rewrite copy_make_16, subslice_8_16 by assumption. cbn [bind].
  rewrite Uint64_be_uint by (rewrite length_drop; lia). cbn [bind].
  rewrite take_ge by (rewrite length_drop; lia).
  unfold BigEndian.PutUint64. rewrite length_drop, Hlen. cbn [Nat.sub Nat.ltb Nat.leb bind].
  f_equal. unfold write_at. f_equal.
  rewrite (drop_ge (drop 8 iv)) by (rewrite length_drop; lia).
  assert (length (BigEndian.bytes_of_uint64
            (uint64 (be_uint (drop 8 iv) + uint64 (int64 (Z.quot offset (int64 16))))))
          = 8%nat) as Hbs by reflexivity.
  revert Hbs. generalize (BigEndian.bytes_of_uint64
            (uint64 (be_uint (drop 8 iv) + uint64 (int64 (Z.quot offset (int64 16)))))).
  intros bs Hbs. rewrite app_nil_r, Hbs, drop_ge by lia. apply app_nil_r.
Qed.

Lemma int64_small z : - 2 ^ 63 <= z < 2 ^ 63 -> int64 z = z.
Proof. intros H. unfold int64. rewrite Z.mod_small; lia. Qed.

Lemma block_offset_nonneg offset :
  0 <= offset < 2 ^ 63 -> uint64 (int64 (Z.quot offset (int64 16))) = offset / 16.
Proof.
  intros H. rewrite (int64_small 16) by lia.
  rewrite Z.quot_div_nonneg by lia.
  assert (0 <= offset / 16 < 2 ^ 63).
  { split; [apply Z.div_pos; lia|]. apply Z.div_lt_upper_bound; lia. }
  rewrite int64_small by lia. unfold uint64. apply Z.mod_small. lia.
Qed.

(** C2.  For a 16-byte IV and an offset [>= 0], [adjustIVForOffset]
    returns an IV whose last eight bytes, read as a big-endian unsigned
    64-bit number, are the last eight bytes of the input read the same
    way plus [floor (offset / 16)], modulo [2 ^ 64], and they are that
    number written big-endian. *)
Theorem C2_adjustIV_adds_block_offset (iv : list byte) (offset : Z) :
  length iv = 16%nat -> 0 <= offset < 2 ^ 63 ->
  exists iv',
    adjustIVForOffset iv offset = Return iv'
    /\ length iv' = 16%nat
    /\ be_uint (drop 8 iv') = (be_uint (drop 8 iv) + offset / 16) mod 2 ^ 64
    /\ drop 8 iv'
       = BigEndian.bytes_of_uint64 ((be_uint (drop 8 iv) + offset / 16) mod 2 ^ 64).
Proof.
  intros Hlen Hoff. eexists. split; [apply adjustIVForOffset_eq; assumption|].
  rewrite block_offset_nonneg by assumption. unfold uint64 at 1 2 3.
  assert (length (take 8 iv) = 8%nat) as Ht by (rewrite length_take; lia).
  split; [|split].
  - rewrite length_app, Ht. reflexivity.
  - rewrite drop_app_length' by (symmetry; assumption).
    rewrite be_uint_bytes_of_uint64. apply Z.mod_mod. lia.
  - rewrite drop_app_length' by (symmetry; assumption). reflexivity.
Qed.

(** C2 on the input of [TestAdjustIVForOffset]. *)
Lemma C2_witness :
  exists iv',
    adjustIVForOffset test_iv 32 = Return iv'
    /\ length iv' = 16%nat
    /\ be_uint (drop 8 iv') = (be_uint (drop 8 test_iv) + 32 / 16) mod 2 ^ 64
    /\ drop 8 iv'
       = BigEndian.bytes_of_uint64 ((be_uint (drop 8 test_iv) + 32 / 16) mod 2 ^ 64).
Proof.
  apply (C2_adjustIV_adds_block_offset test_iv 32); [reflexivity | lia].
Defined.

Lemma adjustIVForOffset_length iv offset :
  length iv = 16%nat ->
  exists iv', adjustIVForOffset iv offset = Return iv' /\ length iv' = 16%nat.
Proof.
  intros Hlen. eexists. split; [apply adjustIVForOffset_eq; assumption|].
  rewrite length_app, length_take, Hlen. reflexivity.
Qed.

Lemma adjustIVForOffset_panics iv offset :
  length iv <> 16%nat -> adjustIVForOffset iv offset = Panic "IV must be 16 bytes.".
Proof.
  intros Hlen. unfold adjustIVForOffset.
  destruct (Nat.eqb_spec (length iv) 16); [contradiction | reflexivity].
Qed.

(** [TestAdjustIVForOffset] of stream_test.go. *)
Example TestAdjustIVForOffset :
  adjustIVForOffset test_iv 32
  = Return [x00; x00; x00; x00; x00; x00; x00; x00; x00; x00; x00; x00; x00; x00; x00; x03].
Proof. vm_compute. reflexivity. Qed.

(** ** Counter mode *)

Section CounterFacts.

Import cipher.

Lemma increment_loop_length i c : length (increment_loop i c) = length c.
Proof.
  revert c. induction i as [|i IH]; intros c; cbn [increment_loop].
  - destruct (negb _); apply length_insert.
  - destruct (negb _); [apply length_insert|]. rewrite IH. apply length_insert.
Qed.

Lemma increment_length c : length (increment c) = length c.
Proof.
  unfold increment. destruct (length c) eqn:E; [exact E|].
  rewrite increment_loop_length. exact E.
Qed.

Lemma increment_loop_app i l suf :
  (i < length l)%nat -> increment_loop i (l ++ suf) = increment_loop i l ++ suf.
Proof.
  revert l. induction i as [|i IH]; intros l Hi; cbn [increment_loop].
  - rewrite !lookup_total_app_l, !insert_app_l, !lookup_total_app_l
      by (rewrite ?length_insert; lia).
    destruct (negb _); reflexivity.
  - rewrite !lookup_total_app_l, !insert_app_l, !lookup_total_app_l
      by (rewrite ?length_insert; lia).
    destruct (negb _); [reflexivity|]. apply IH. rewrite length_insert. lia.
Qed.

Lemma increment_snoc pre x :
  increment (pre ++ [x])
  = if Z_of_byte x =? 255 then increment pre ++ [x00]
    else pre ++ [byte_of_Z (Z_of_byte x + 1)].
Proof.
  unfold increment at 1. rewrite length_app, Nat.add_comm. cbn [length Nat.add].
  pose proof (Z_of_byte_range x) as Hx.
  assert (Hins : forall y, <[length pre := y]> (pre ++ [x]) = pre ++ [y]).
  { intros y. rewrite insert_app_r_alt by lia. now rewrite Nat.sub_diag. }
  assert (Hlk : forall y, (pre ++ [y]) !!! length pre = y).
  { intros y. apply list_lookup_total_middle. reflexivity. }
  destruct (length pre) as [|n] eqn:Hn.
  - destruct pre; [|discriminate]. cbn [increment_loop app].
    cbn [insert list_insert lookup_total list_lookup_total].
    rewrite Z_of_byte_of_Z. destruct (Z.eqb_spec (Z_of_byte x) 255) as [->|Hne].
    + reflexivity.
    + rewrite Z.mod_small by lia. destruct (Z.eqb_spec (Z_of_byte x + 1) 0); [lia|reflexivity].
  - cbn [increment_loop]. rewrite Hlk, Hins, Hlk, Z_of_byte_of_Z.
    destruct (Z.eqb_spec (Z_of_byte x) 255) as [->|Hne].
    + change ((255 + 1) mod 256 =? 0) with true. cbn [negb].
      rewrite increment_loop_app by lia. unfold increment. rewrite Hn. reflexivity.
    + rewrite Z.mod_small by lia. destruct (Z.eqb_spec (Z_of_byte x + 1) 0); [lia|reflexivity].
Qed.

Lemma be_uint_snoc l x : be_uint (l ++ [x]) = be_uint l * 256 + Z_of_byte x.
Proof. rewrite be_uint_app. cbn. lia. Qed.

(** The byte-wise increment is +1 on the big-endian value, modulo the
    width of the counter. *)
Lemma be_uint_increment c :
  be_uint (increment c) = (be_uint c + 1) mod 256 ^ Z.of_nat (length c).
Proof.
  induction c as [|x pre IH] using rev_ind; [reflexivity|].
  rewrite increment_snoc, length_app, Nat2Z.inj_add, Z.pow_add_r by lia.
  change (256 ^ Z.of_nat (length [x])) with 256.
  pose proof (Z_of_byte_range x) as Hx. pose proof (be_uint_range pre) as Hp.
  set (W := 256 ^ Z.of_nat (length pre)) in *.
  destruct (Z.eqb_spec (Z_of_byte x) 255) as [E|Hne].
  - rewrite !be_uint_snoc, IH, E. change (Z_of_byte x00) with 0.
    replace (be_uint pre * 256 + 255 + 1) with ((be_uint pre + 1) * 256) by lia.
    rewrite Z.mul_mod_distr_r by lia. lia.
  - rewrite !be_uint_snoc, Z_of_byte_of_Z, (Z.mod_small (Z_of_byte x + 1)) by lia.
    rewrite Z.mod_small; nia.
Qed.

Lemma be_uint_iter_increment k c :
  be_uint (Nat.iter k increment c)
  = (be_uint c + Z.of_nat k) mod 256 ^ Z.of_nat (length c)
  /\ length (Nat.iter k increment c) = length c.
Proof.
  induction k as [|k [IH1 IH2]].
  - change (Nat.iter 0 increment c) with c.
    pose proof (be_uint_range c). rewrite Z.add_0_r, Z.mod_small by lia. auto.
  - rewrite Nat.iter_succ, be_uint_increment, increment_length, IH1, IH2.
    split; [|reflexivity].
    rewrite Zplus_mod_idemp_l. f_equal. lia.
Qed.

Lemma keystream_length block n c : length (keystream block n c) = n.
Proof. revert c. induction n; intros c; cbn; auto. Qed.

Lemma keystream_app block n m c :
  keystream block (n + m) c
  = keystream block n c ++ keystream block m (Nat.iter n increment c).
Proof.
  revert c. induction n as [|n IH]; intros c; [reflexivity|].
  cbn [Nat.add keystream app]. rewrite IH, Nat.iter_succ_r. reflexivity.
Qed.

Lemma keystream_bytes_length block n c :
  length c = BlockSize block ->
  length (concat (keystream block n c)) = (n * BlockSize block)%nat.
Proof.
  revert c. induction n as [|n IH]; intros c Hc; [reflexivity|].
  cbn [keystream concat]. rewrite length_app, Encrypt_length, IH by (rewrite ?increment_length; assumption).
  reflexivity.
Qed.

(** The output of [XORKeyStream] is the source xor-ed with the buffered
    bytes followed by the blocks of the key stream. *)
Lemma XORKeyStream_keystream x src n :
  length (ctr_ x) = BlockSize (b x) ->
  (length src <= length (out x) + n * BlockSize (b x))%nat ->
  snd (XORKeyStream x src)
  = zip_with xor_byte src (out x ++ concat (keystream (b x) n (ctr_ x))).
Proof.
  revert x n. induction src as [|s src IH]; intros x n Hwf Hlen; [reflexivity|].
  cbn [XORKeyStream].
  destruct (out x) as [|k o] eqn:Eo.
  - destruct n as [|n]; [cbn in Hlen; lia|].
    cbn [refill out keystream concat app]. rewrite Eo. cbn [app].
    pose proof (Encrypt_length (b x) (ctr_ x) Hwf) as HE.
    pose proof (BlockSize_pos (b x)) as Hpos.
    destruct (Encrypt (b x) (ctr_ x)) as [|k o] eqn:EE; [cbn in HE; lia|].
    cbn [ctr_ b].
    specialize (IH {| b := b x; ctr_ := increment (ctr_ x); out := o |} n).
    destruct (XORKeyStream _ src) as [x' dst] eqn:Ex. cbn [snd app zip_with].
    f_equal. cbn [snd b ctr_ out] in IH. apply IH.
    + rewrite increment_length. assumption.
    + cbn [length] in *. lia.
  - rewrite Eo.
    specialize (IH {| b := b x; ctr_ := ctr_ x; out := o |} n).
    destruct (XORKeyStream _ src) as [x' dst] eqn:Ex. cbn [snd app zip_with].
    f_equal. cbn [snd b ctr_ out] in IH. apply IH; [assumption|].
    cbn [length] in *. lia.
Qed.

Lemma Z_of_xor_byte x y : Z_of_byte (xor_byte x y) = Z.lxor (Z_of_byte x) (Z_of_byte y).
Proof.
  unfold xor_byte. rewrite Z_of_byte_of_Z. apply Z.mod_small.
  pose proof (Z_of_byte_range x) as Hx. pose proof (Z_of_byte_range y) as Hy.
  assert (0 <= Z.lxor (Z_of_byte x) (Z_of_byte y)) as Hnn by (apply Z.lxor_nonneg; lia).
  split; [assumption|].
  destruct (Z.eq_dec (Z.lxor (Z_of_byte x) (Z_of_byte y)) 0) as [->|Hne]; [lia|].
  change 256 with (2 ^ 8). apply Z.log2_lt_pow2; [lia|].
  eapply Z.le_lt_trans; [apply Z.log2_lxor; lia|].
  apply Z.max_lub_lt.
  - destruct (Z.eq_dec (Z_of_byte x) 0) as [->|]; [cbn; lia|]. apply Z.log2_lt_pow2; lia.
  - destruct (Z.eq_dec (Z_of_byte y) 0) as [->|]; [cbn; lia|]. apply Z.log2_lt_pow2; lia.
Qed.

Lemma xor_byte_inj x k1 k2 : xor_byte x k1 = xor_byte x k2 -> k1 = k2.
Proof.
  intros H. apply (f_equal Z_of_byte) in H. rewrite !Z_of_xor_byte in H.
  apply Z_of_byte_inj.
  rewrite <- (Z.lxor_0_l (Z_of_byte k1)), <- (Z.lxor_0_l (Z_of_byte k2)).
  rewrite <- (Z.lxor_nilpotent (Z_of_byte x)), !Z.lxor_assoc. now f_equal.
Qed.

Lemma zip_with_xor_inj src k1 k2 :
  length k1 = length src -> length k2 = length src ->
  zip_with xor_byte src k1 = zip_with xor_byte src k2 -> k1 = k2.
Proof.
  revert k1 k2. induction src as [|s src IH]; intros [|a k1] [|c k2] H1 H2 H;
    try discriminate; [reflexivity|].
  cbn [zip_with] in H. injection H as Hh Ht. f_equal.
  - eapply xor_byte_inj; eassumption.
  - apply IH; cbn in *; congruence.
Qed.

Lemma Encrypt_inj block c1 c2 :
  length c1 = BlockSize block -> length c2 = BlockSize block ->
  Encrypt block c1 = Encrypt block c2 -> c1 = c2.
Proof.
  intros H1 H2 H. rewrite <- (Decrypt_Encrypt block c1 H1), <- (Decrypt_Encrypt block c2 H2).
  now rewrite H.
Qed.

Lemma drop_keystream_bytes block k m c :
  length c = BlockSize block ->
  drop (k * BlockSize block) (concat (keystream block (k + m) c))
  = concat (keystream block m (Nat.iter k increment c)).
Proof.
  intros Hc. rewrite keystream_app, concat_app.
  apply drop_app_length'. rewrite keystream_bytes_length; auto.
Qed.

(** Without a carry out of the low eight bytes, the resynchroniser steps
    the whole counter block [offset / 16] times. *)
Lemma adjustIVForOffset_iter_increment iv offset :
  length iv = 16%nat -> 0 <= offset < 2 ^ 63 ->
  be_uint (drop 8 iv) + offset / 16 < 2 ^ 64 ->
  adjustIVForOffset iv offset = Return (Nat.iter (Z.to_nat (offset / 16)) increment iv).
Proof.
  intros Hlen Hoff Hnc. rewrite adjustIVForOffset_eq by assumption. f_equal.
  rewrite block_offset_nonneg by assumption.
  assert (0 <= offset / 16) as Hk by (apply Z.div_pos; lia).
  destruct (be_uint_iter_increment (Z.to_nat (offset / 16)) iv) as [Hv Hl].
  apply be_uint_inj.
  - rewrite Hl, length_app, length_take, Hlen. reflexivity.
  - rewrite Hv, Hlen, Z2Nat.id by assumption.
    rewrite <- (take_drop 8 iv) at 3.
    rewrite !be_uint_app, be_uint_bytes_of_uint64, length_drop, Hlen.
    cbn [length BigEndian.bytes_of_uint64].
    pose proof (be_uint_range (take 8 iv)) as Hhi. rewrite length_take, Hlen in Hhi.
    pose proof (be_uint_range (drop 8 iv)) as Hlo. rewrite length_drop, Hlen in Hlo.
    change (Z.of_nat (16 - 8)) with 8 in *. change (Z.of_nat (8 `min` 16)) with 8 in *.
    change (Z.of_nat 8) with 8. change (Z.of_nat 16) with 16.
    unfold uint64. rewrite Z.mod_mod by lia.
    change (256 ^ 8) with (2 ^ 64) in *. change (256 ^ 16) with (2 ^ 64 * 2 ^ 64).
    rewrite (Z.mod_small (_ + _) (2 ^ 64)) by lia.
    rewrite Z.mod_small; nia.
Qed.

(** Without a carry out of the low eight bytes of the counter, the
    key stream of the adjusted IV is, block by block, the key stream of
    the original IV from block [offset / 16] on. *)
Lemma resync_keystream_block_by_block (block : Block) iv offset n :
  BlockSize block = 16%nat -> length iv = 16%nat -> 0 <= offset < 2 ^ 63 ->
  be_uint (drop 8 iv) + offset / 16 < 2 ^ 64 ->
  exists iv',
    adjustIVForOffset iv offset = Return iv'
    /\ keystream block n iv'
       = drop (Z.to_nat (offset / 16)) (keystream block (Z.to_nat (offset / 16) + n) iv).
Proof.
  intros Hb Hlen Hoff Hnc. eexists. split.
  - apply adjustIVForOffset_iter_increment; assumption.
  - rewrite keystream_app. symmetry. apply drop_app_length'. now rewrite keystream_length.
Qed.

(** Under the same condition and for an offset that is a multiple of
    16, decrypting the tail of a ciphertext with the adjusted IV gives
    the tail of the decryption of the whole ciphertext. *)
Lemma resync_decrypts_aligned_range (block : Block) iv offset ct :
  BlockSize block = 16%nat -> length iv = 16%nat ->
  0 <= offset < 2 ^ 63 -> offset mod 16 = 0 ->
  be_uint (drop 8 iv) + offset / 16 < 2 ^ 64 ->
  exists iv' x x',
    adjustIVForOffset iv offset = Return iv'
    /\ NewCTR block iv = Return x
    /\ NewCTR block iv' = Return x'
    /\ snd (XORKeyStream x' (drop (Z.to_nat offset) ct))
       = drop (Z.to_nat offset) (snd (XORKeyStream x ct)).
Proof.
  intros Hb Hlen Hoff Hal Hnc.
  set (k := Z.to_nat (offset / 16)).
  destruct (be_uint_iter_increment k iv) as [_ Hl].
  exists (Nat.iter k increment iv). eexists. eexists.
  split; [apply adjustIVForOffset_iter_increment; assumption|].
  unfold NewCTR. rewrite Hl, Hlen, Hb. cbn [Nat.eqb negb].
  split; [reflexivity|]. split; [reflexivity|].
  assert (Z.to_nat offset = (k * BlockSize block)%nat) as ->.
  { rewrite Hb. unfold k. apply Nat2Z.inj. rewrite Nat2Z.inj_mul, !Z2Nat.id; try lia.
    - change (Z.of_nat 16) with 16. pose proof (Z.div_mod offset 16 ltac:(lia)). lia.
    - apply Z.div_pos; lia. }
  rewrite (XORKeyStream_keystream _ _ (length ct)), (XORKeyStream_keystream _ _ (k + length ct)).
  - cbn [b ctr_ out app]. rewrite zip_with_drop. f_equal.
    symmetry. apply drop_keystream_bytes. now rewrite Hb.
  - cbn [b ctr_]. now rewrite Hb.
  - cbn [b out length]. rewrite Hb. lia.
  - cbn [b ctr_]. now rewrite Hl, Hb.
  - cbn [b out length]. rewrite length_drop, Hb. lia.
Qed.

(** At the IV [iv_carry] and offset 16, for any block cipher: the
    resynchroniser wraps the low eight bytes to zero and leaves the high
    eight bytes alone, while the counter of [cipher.NewCTR] carries into
    them.  The adjusted IV is not the counter block the uninterrupted
    stream uses for its second block, the key-stream blocks differ, and
    so do the decrypted bytes of any ciphertext of at least 32 bytes. *)
Lemma resync_drops_counter_carry (block : Block) (ct : list byte) :
  BlockSize block = 16%nat ->
  exists iv' x x',
    adjustIVForOffset iv_carry 16 = Return iv'
    /\ NewCTR block iv_carry = Return x
    /\ NewCTR block iv' = Return x'
    /\ iv' <> increment iv_carry
    /\ keystream block 1 iv'
       <> drop 1 (keystream block 2 iv_carry)
    /\ ((32 <= length ct)%nat ->
        snd (XORKeyStream x' (drop 16 ct)) <> drop 16 (snd (XORKeyStream x ct))).
Proof.
  intros Hb.
  assert (Hadj : adjustIVForOffset iv_carry 16 = Return (replicate 16 x00))
    by (vm_compute; reflexivity).
  assert (Hinc : increment iv_carry
                 = [x00; x00; x00; x00; x00; x00; x00; x01;
                    x00; x00; x00; x00; x00; x00; x00; x00])
    by (vm_compute; reflexivity).
  assert (Hblk : Encrypt block (replicate 16 x00) <> Encrypt block (increment iv_carry)).
  { intros HE. apply Encrypt_inj in HE; [|rewrite Hb; reflexivity|rewrite Hb, Hinc; reflexivity].
    rewrite Hinc in HE. discriminate HE. }
  exists (replicate 16 x00). eexists. eexists.
  split; [exact Hadj|]. unfold NewCTR. rewrite Hb.
  split; [reflexivity|]. split; [reflexivity|].
  split; [rewrite Hinc; discriminate|].
  split.
  - cbn [keystream drop]. intros HE. apply Hblk. congruence.
  - intros Hct HE. apply Hblk.
    rewrite (XORKeyStream_keystream _ _ (length ct)),
            (XORKeyStream_keystream _ _ (1 + length ct)) in HE.
    + cbn [b ctr_ out app] in HE.
      rewrite zip_with_drop in HE.
      pose proof (drop_keystream_bytes block 1 (length ct) iv_carry) as Hd.
      rewrite Hb in Hd. specialize (Hd eq_refl).
      change (1 * 16)%nat with 16%nat in Hd.
      change (Nat.iter 1 increment iv_carry) with (increment iv_carry) in Hd.
      rewrite Hd in HE. clear Hd.
      destruct (length ct) as [|n] eqn:En; [lia|].
      cbn [keystream concat] in HE.
      apply (f_equal (take 16)) in HE. rewrite !zip_with_take in HE.
      rewrite !take_app_length' in HE
        by (rewrite Encrypt_length; rewrite ?Hb, ?Hinc; reflexivity).
      apply zip_with_xor_inj in HE; [exact HE| |];
        rewrite Encrypt_length, length_take, length_drop; rewrite ?Hb, ?Hinc; try reflexivity; lia.
    + cbn [b ctr_]. now rewrite Hb.
    + cbn [b out length]. rewrite Hb. lia.
    + cbn [b ctr_]. now rewrite Hb.
    + cbn [b out length]. rewrite length_drop, Hb. lia.
Qed.

(** C1 fails at the IV [iv_carry] = [00 .. 00 ff .. ff], offset 16 and a
    ciphertext of 32 zero bytes, whatever the block cipher: no block
    cipher of block size 16 makes the decryption from the adjusted IV
    agree with the tail of the full decryption for every 16-byte IV and
    every offset that is a multiple of 16. *)
Lemma C1_counterexample :
  ~ exists block : Block,
      BlockSize block = 16%nat
      /\ forall (iv ct : list byte) (offset : Z),
           length iv = 16%nat -> 0 <= offset < 2 ^ 63 -> offset mod 16 = 0 ->
           exists iv' x x',
             adjustIVForOffset iv offset = Return iv'
             /\ NewCTR block iv = Return x
             /\ NewCTR block iv' = Return x'
             /\ snd (XORKeyStream x' (drop (Z.to_nat offset) ct))
                = drop (Z.to_nat offset) (snd (XORKeyStream x ct)).
Proof.
  intros (block & Hb & H).
  destruct (H iv_carry (replicate 32 x00) 16 eq_refl ltac:(lia) eq_refl)
    as (iv1 & x1 & x1' & Hadj1 & Hx1 & Hx1' & Heq).
  destruct (resync_drops_counter_carry block (replicate 32 x00) Hb)
    as (iv2 & x2 & x2' & Hadj2 & Hx2 & Hx2' & _ & _ & Hne).
  rewrite Hadj1 in Hadj2. injection Hadj2 as <-.
  rewrite Hx1 in Hx2. injection Hx2 as <-.
  rewrite Hx1' in Hx2'. injection Hx2' as <-.
  apply Hne; [cbn; lia | exact Heq].
Qed.

(** C1, amended.  For every block cipher of block size 16, every 16-byte
    IV and every offset [>= 0] that is a multiple of 16, provided the
    last eight bytes of the IV, read as a big-endian number, plus
    [offset / 16] stay below [2 ^ 64]: decrypting the ciphertext from
    byte [offset] on with a CTR stream started at
    [adjustIVForOffset iv offset] gives the decryption of the whole
    ciphertext from the original IV with its first [offset] bytes
    dropped; and the key stream of the adjusted IV is, block by block,
    the original key stream from block [offset / 16] on. *)
Theorem C1_resync_in_step_without_carry
    (block : Block) (iv ct : list byte) (offset : Z) (n : nat) :
  BlockSize block = 16%nat -> length iv = 16%nat ->
  0 <= offset < 2 ^ 63 -> offset mod 16 = 0 ->
  be_uint (drop 8 iv) + offset / 16 < 2 ^ 64 ->
  exists iv' x x',
    adjustIVForOffset iv offset = Return iv'
    /\ NewCTR block iv = Return x
    /\ NewCTR block iv' = Return x'
    /\ snd (XORKeyStream x' (drop (Z.to_nat offset) ct))
       = drop (Z.to_nat offset) (snd (XORKeyStream x ct))
    /\ keystream block n iv'
       = drop (Z.to_nat (offset / 16)) (keystream block (Z.to_nat (offset / 16) + n) iv).
Proof.
  intros Hb Hlen Hoff Hal Hnc.
  destruct (resync_decrypts_aligned_range block iv offset ct Hb Hlen Hoff Hal Hnc)
    as (iv' & x & x' & Hadj & Hx & Hx' & Heq).
  destruct (resync_keystream_block_by_block block iv offset n Hb Hlen Hoff Hnc)
    as (iv2 & Hadj2 & Hks).
  rewrite Hadj in Hadj2. injection Hadj2 as <-.
  exists iv', x, x'. auto.
Qed.

(** C1, amended, on the IV of the unit test, offset 32 and the test
    content as ciphertext. *)
Lemma C1_witness :
  exists iv' x x',
    adjustIVForOffset test_iv 32 = Return iv'
    /\ NewCTR identity_block test_iv = Return x
    /\ NewCTR identity_block iv' = Return x'
    /\ snd (XORKeyStream x' (drop (Z.to_nat 32) (sourceContent ++ sourceContent)))
       = drop (Z.to_nat 32) (snd (XORKeyStream x (sourceContent ++ sourceContent)))
    /\ keystream identity_block 2 iv'
       = drop (Z.to_nat (32 / 16))
           (keystream identity_block (Z.to_nat (32 / 16) + 2) test_iv).
Proof.
  apply (C1_resync_in_step_without_carry identity_block test_iv
           (sourceContent ++ sourceContent) 32 2);
    [reflexivity | reflexivity | lia | reflexivity | vm_compute; reflexivity].
Defined.

End CounterFacts.

(** ** Strings *)

Section StringFacts.

Local Open Scope string_scope.
Local Open Scope nat_scope.

Lemma str_app_cons x a b : String x a ++ b = String x (a ++ b).
Proof. reflexivity. Qed.

Lemma str_app_nil_l b : "" ++ b = b.
Proof. reflexivity. Qed.

Lemma str_app_assoc a b c : (a ++ b) ++ c = a ++ (b ++ c).
Proof.
  induction a as [|x a IH]; [reflexivity|]. rewrite !str_app_cons. now rewrite IH.
Qed.

Lemma str_length_app a b : String.length (a ++ b) = String.length a + String.length b.
Proof.
  induction a as [|x a IH]; [reflexivity|]. rewrite str_app_cons. cbn. now rewrite IH.
Qed.

Lemma substring_0_0 s : substring 0 0 s = "".
Proof. destruct s; reflexivity. Qed.

Lemma substring_0_all s : substring 0 (String.length s) s = s.
Proof. induction s as [|x s IH]; cbn; [reflexivity|]. now rewrite IH. Qed.

Lemma substring_0_app a b : substring 0 (String.length a) (a ++ b) = a.
Proof.
  induction a as [|x a IH]; [apply substring_0_0|].
  rewrite str_app_cons. cbn. now rewrite IH.
Qed.

Lemma substring_skip_app a b n m :
  substring (String.length a + n) m (a ++ b) = substring n m b.
Proof. induction a as [|x a IH]; [reflexivity|]. rewrite str_app_cons. apply IH. Qed.

Lemma substring_split s n :
  n <= String.length s ->
  s = substring 0 n s ++ substring n (String.length s - n) s.
Proof.
  revert s. induction n as [|n IH]; intros s Hn.
  - rewrite substring_0_0, Nat.sub_0_r, substring_0_all. reflexivity.
  - destruct s as [|x s]; cbn in Hn; [lia|]. cbn. rewrite str_app_cons. f_equal. apply IH. lia.
Qed.

Lemma slice_app_l a b : strings.slice (a ++ b) 0 (String.length a) = a.
Proof. unfold strings.slice. rewrite Nat.sub_0_r. apply substring_0_app. Qed.

Lemma slice_from_app a b : strings.slice_from (a ++ b) (String.length a) = b.
Proof.
  unfold strings.slice_from. rewrite str_length_app.
  replace (String.length a + String.length b - String.length a) with (String.length b) by lia.
  rewrite <- (Nat.add_0_r (String.length a)) at 1.
  rewrite substring_skip_app. apply substring_0_all.
Qed.

Lemma HasPrefix_app p t : strings.HasPrefix (p ++ t) p = true.
Proof.
  unfold strings.HasPrefix. rewrite slice_app_l, String.eqb_refl, andb_true_r.
  apply Nat.leb_le. rewrite str_length_app. lia.
Qed.

Lemma HasPrefix_inv s p :
  strings.HasPrefix s p = true -> s = p ++ strings.slice_from s (String.length p).
Proof.
  unfold strings.HasPrefix, strings.slice, strings.slice_from.
  intros H. apply andb_true_iff in H as [Hl He].
  apply Nat.leb_le in Hl. apply String.eqb_eq in He. rewrite Nat.sub_0_r in He.
  rewrite <- He at 1. apply substring_split. assumption.
Qed.

Lemma TrimPrefix_app p t : strings.TrimPrefix (p ++ t) p = t.
Proof. unfold strings.TrimPrefix. rewrite HasPrefix_app. apply slice_from_app. Qed.

Lemma no_dash_iff s : no_dash s <-> dashes s = 0.
Proof. reflexivity. Qed.

Lemma dashes_app a b : dashes (a ++ b) = dashes a + dashes b.
Proof.
  induction a as [|c a IH]; [reflexivity|]. rewrite str_app_cons. cbn. rewrite IH. lia.
Qed.

Lemma dashes_le_length s : dashes s <= String.length s.
Proof. induction s as [|c s IH]; cbn; [lia|]. destruct (Ascii.eqb c "-"); lia. Qed.

Lemma HasPrefix_dash_cons c s :
  strings.HasPrefix (String c s) "-" = Ascii.eqb c "-".
Proof.
  unfold strings.HasPrefix, strings.slice. cbn. rewrite substring_0_0.
  destruct (Ascii.eqb_spec c "-") as [->|Hne]; [reflexivity|].
  cbn. destruct (Ascii.eqb_spec c "-"); [contradiction|reflexivity].
Qed.

(** Every string is either free of dashes or splits at its first one. *)
Lemma first_dash s :
  (dashes s = 0 /\ strings.Index s "-" = (-1)%Z)
  \/ exists a rest,
       s = a ++ "-" ++ rest /\ dashes a = 0
       /\ strings.Index s "-" = Z.of_nat (String.length a)
       /\ dashes s = S (dashes rest).
Proof.
  induction s as [|c s IH].
  - left. split; reflexivity.
  - cbn [strings.Index dashes]. rewrite HasPrefix_dash_cons.
    destruct (Ascii.eqb_spec c "-") as [->|Hne].
    + right. exists "", s. repeat split; reflexivity.
    + destruct IH as [[Hn Hi]|(a & rest & -> & Ha & Hi & Hn)].
      * left. rewrite Hi. split; [exact Hn | reflexivity].
      * right. exists (String c a), rest. rewrite Hi.
        assert ((Z.of_nat (String.length a) <? 0)%Z = false) as -> by lia.
        repeat split.
        -- cbn [dashes]. destruct (Ascii.eqb_spec c "-"); [contradiction|]. exact Ha.
        -- cbn [String.length]. lia.
        -- rewrite Hn. reflexivity.
Qed.

Lemma count_from_dash fuel s :
  strings.count_from fuel s "-" = Z.of_nat (Nat.min fuel (dashes s)).
Proof.
  revert s. induction fuel as [|fuel IH]; intros s; [reflexivity|].
  cbn [strings.count_from].
  destruct (first_dash s) as [[Hn Hi]|(a & rest & -> & Ha & Hi & Hn)].
  - rewrite Hi, Hn. cbn. lia.
  - rewrite Hi, Hn. assert ((Z.of_nat (String.length a) <? 0)%Z = false) as -> by lia.
    rewrite Nat2Z.id. change (String.length "-") with 1.
    replace (String.length a + 1) with (String.length (a ++ "-")) by (rewrite str_length_app; reflexivity).
    rewrite <- str_app_assoc, slice_from_app, IH. lia.
Qed.

Lemma Count_dash s : strings.Count s "-" = Z.of_nat (dashes s).
Proof.
  unfold strings.Count. rewrite count_from_dash. pose proof (dashes_le_length s). lia.
Qed.

Lemma genSplit_loop_dash n s :
  n = dashes s ->
  join_dash (strings.genSplit_loop n s "-") = s
  /\ Forall (fun f => dashes f = 0) (strings.genSplit_loop n s "-")
  /\ List.length (strings.genSplit_loop n s "-") = S n.
Proof.
  revert s. induction n as [|n IH]; intros s Hn.
  - cbn. repeat split; auto.
  - cbn [strings.genSplit_loop].
    destruct (first_dash s) as [[Hn' Hi]|(a & rest & -> & Ha & Hi & Hn')]; [congruence|].
    rewrite Hi. assert ((Z.of_nat (String.length a) <? 0)%Z = false) as -> by lia.
    rewrite Nat2Z.id, slice_app_l. change (String.length "-") with 1.
    replace (String.length a + 1) with (String.length (a ++ "-")) by (rewrite str_length_app; reflexivity).
    rewrite <- str_app_assoc, slice_from_app.
    destruct (IH rest ltac:(lia)) as (Hj & Hf & Hl).
    repeat split.
    + cbn [join_dash]. destruct (strings.genSplit_loop n rest "-") eqn:E; [discriminate Hl|].
      rewrite Hj. now rewrite str_app_assoc.
    + constructor; assumption.
    + cbn [List.length]. now rewrite Hl.
Qed.

Lemma Split_dash s :
  join_dash (strings.Split s "-") = s
  /\ Forall (fun f => dashes f = 0) (strings.Split s "-")
  /\ List.length (strings.Split s "-") = S (dashes s).
Proof.
  unfold strings.Split. cbn [String.eqb]. rewrite Count_dash, Nat2Z.id.
  apply genSplit_loop_dash. reflexivity.
Qed.

Lemma app_dash_inj a x b y :
  dashes a = 0 -> dashes x = 0 ->
  x ++ "-" ++ y = a ++ "-" ++ b -> x = a /\ y = b.
Proof.
  revert x. induction a as [|c a IH]; intros x Ha Hx Hj.
  - destruct x as [|c' x]; rewrite ?str_app_cons, ?str_app_nil_l in Hj.
    + injection Hj as ->. auto.
    + injection Hj as -> _. cbn in Hx. discriminate.
  - cbn [dashes] in Ha. destruct (Ascii.eqb_spec c "-") as [|Hc]; [discriminate|].
    destruct x as [|c' x]; rewrite ?str_app_cons, ?str_app_nil_l in Hj.
    + injection Hj as Hc' _. congruence.
    + injection Hj as -> Hj. cbn [dashes] in Hx.
      destruct (Ascii.eqb_spec c "-"); [contradiction|].
      destruct (IH x Ha Hx Hj) as [-> ->]. auto.
Qed.

(** Two fields come out exactly when the string is two dash-free fields
    around one dash. *)
Lemma Split_dash_two s a b :
  strings.Split s "-" = [a; b] <-> s = a ++ "-" ++ b /\ no_dash a /\ no_dash b.
Proof.
  rewrite !no_dash_iff. split.
  - intros H. destruct (Split_dash s) as (Hj & Hf & _). rewrite H in Hj, Hf.
    cbn [join_dash] in Hj. apply Forall_cons in Hf as [Ha Hf]. apply Forall_cons in Hf as [Hb _].
    subst. auto.
  - intros (-> & Ha & Hb).
    destruct (Split_dash (a ++ "-" ++ b)) as (Hj & Hf & Hl).
    rewrite !dashes_app, Ha, Hb in Hl. change (S (0 + (dashes "-" + 0))) with 2 in Hl.
    destruct (strings.Split (a ++ "-" ++ b) "-") as [|x [|y [|z l]]]; try discriminate Hl.
    cbn [join_dash] in Hj. apply Forall_cons in Hf as [Hx Hf]. apply Forall_cons in Hf as [Hy _].
    destruct (app_dash_inj a x b y Ha Hx Hj) as [-> ->]. reflexivity.
Qed.

End StringFacts.

(** ** The range parsers *)

Section ParseFacts.

Local Open Scope string_scope.

Lemma uint64_range z : 0 <= uint64 z < 2 ^ 64.
Proof. unfold uint64. apply Z.mod_pos_bound. lia. Qed.

Lemma ParseUint_loop_nonneg s n : 0 <= n -> 0 <= fst (strconv.ParseUint_loop s n).
Proof.
  revert n. induction s as [|ch s IH]; intros n Hn; cbn [strconv.ParseUint_loop]; [exact Hn|].
  destruct (_ && _).
  - destruct (_ >=? 10); [cbn; lia|]. destruct (n >=? _); [cbn; unfold strconv.maxUint64; lia|].
    destruct (_ || _); [cbn; unfold strconv.maxUint64; lia|].
    apply IH. apply uint64_range.
  - destruct (_ && _); [|cbn; lia].
    destruct (_ >=? 10); [cbn; lia|]. destruct (n >=? _); [cbn; unfold strconv.maxUint64; lia|].
    destruct (_ || _); [cbn; unfold strconv.maxUint64; lia|].
    apply IH. apply uint64_range.
Qed.

Lemma ParseUint_nonneg s : 0 <= fst (strconv.ParseUint s).
Proof.
  unfold strconv.ParseUint. destruct (String.eqb s ""); [cbn; lia|].
  apply ParseUint_loop_nonneg. lia.
Qed.

(** A field without a dash cannot parse to a negative number. *)
Lemma ParseInt_no_dash s v :
  no_dash s -> strconv.ParseInt s = (v, None) -> 0 <= v < 2 ^ 63.
Proof.
  intros Hnd H. destruct s as [|c0 rest]; [discriminate|].
  unfold strconv.ParseInt in H.
  assert (Ascii.eqb c0 "-" = false) as Hc.
  { unfold no_dash in Hnd. cbn [dashes] in Hnd. destruct (Ascii.eqb c0 "-"); [discriminate|reflexivity]. }
  rewrite Hc in H.
  assert (forall t, (let '(un, err) := strconv.ParseUint t in
            match err with
            | Some ErrSyntax => (0, Some (NumError "ParseInt" (String c0 rest) ErrSyntax))
            | _ => if negb false && (un >=? 2 ^ 63)
                   then (int64 (2 ^ 63 - 1), Some (NumError "ParseInt" (String c0 rest) ErrRange))
                   else if false && (un >? 2 ^ 63)
                   then (- int64 (2 ^ 63), Some (NumError "ParseInt" (String c0 rest) ErrRange))
                   else (int64 un, None)
            end) = (v, None) -> 0 <= v < 2 ^ 63) as Hgen.
  { intros t Ht. pose proof (ParseUint_nonneg t) as Hn.
    destruct (strconv.ParseUint t) as [un err]. cbn [fst] in Hn.
    assert ((if negb false && (un >=? 2 ^ 63)
             then (int64 (2 ^ 63 - 1), Some (NumError "ParseInt" (String c0 rest) ErrRange))
             else if false && (un >? 2 ^ 63)
             then (- int64 (2 ^ 63), Some (NumError "ParseInt" (String c0 rest) ErrRange))
             else (int64 un, None)) = (v, None) -> 0 <= v < 2 ^ 63) as Hfin.
    { cbn [negb andb]. destruct (Z.geb_spec un (2 ^ 63)); [discriminate|].
      intros [= <-]. rewrite int64_small; lia. }
    destruct err as [[|]|]; [discriminate | exact (Hfin Ht) | exact (Hfin Ht)]. }
  destruct (Ascii.eqb c0 "+"); apply Hgen in H; exact H.
Qed.

Lemma nonempty_bytes_prefix t : String.eqb ("bytes=" ++ t) "" = false.
Proof. reflexivity. Qed.

(** [parseByteRange] on a header of the single-range form. *)
Lemma parseByteRange_single_range header size start end_ :
  single_range_form header start end_ ->
  parseByteRange header size
  = if (start >? end_) || (end_ >=? size)
    then (0, 0, Some (errorString "range out of bounds"))
    else (start, int64 (int64 (end_ - start) + 1), None).
Proof.
  intros (s & e & -> & Hs & He & Ps & Pe).
  unfold parseByteRange. rewrite nonempty_bytes_prefix, HasPrefix_app, TrimPrefix_app.
  cbn [negb].
  assert (strings.Split (s ++ "-" ++ e) "-" = [s; e]) as -> by (apply Split_dash_two; auto).
  cbn [length Nat.eqb negb nth]. rewrite Ps, Pe. reflexivity.
Qed.

(** Within bounds the length does not wrap. *)
Lemma parseByteRange_in_bounds header size start end_ :
  is_int64 size -> single_range_form header start end_ ->
  start <= end_ -> end_ < size ->
  parseByteRange header size = (start, end_ - start + 1, None).
Proof.
  intros Hsize Hf H1 H2. rewrite (parseByteRange_single_range _ _ _ _ Hf).
  destruct (Z.gtb_spec start end_); [lia|]. destruct (Z.geb_spec end_ size); [lia|].
  cbn [orb]. destruct Hf as (s & e & _ & Hs & He & Ps & Pe).
  pose proof (ParseInt_no_dash _ _ Hs Ps). pose proof (ParseInt_no_dash _ _ He Pe).
  unfold is_int64 in Hsize. rewrite !int64_small; [reflexivity| |]; rewrite ?int64_small; lia.
Qed.

(** [parseByteRange] on a non-empty header that is not of that form. *)
Lemma parseByteRange_malformed header size :
  header <> "" ->
  (forall start end_, ~ single_range_form header start end_) ->
  exists e, parseByteRange header size = (0, 0, Some e) /\ InvalidRangeFormat e.
Proof.
  intros Hne Hnf. unfold parseByteRange, InvalidRangeFormat.
  destruct (String.eqb_spec header "") as [|_]; [contradiction|].
  destruct (strings.HasPrefix header "bytes=") eqn:Hp; cbn [negb]; [|eauto 10].
  pose proof (HasPrefix_inv _ _ Hp) as Hh. unfold strings.TrimPrefix. rewrite Hp.
  set (t := strings.slice_from header (String.length "bytes=")) in *.
  destruct (strings.Split t "-") as [|a [|c [|z l]]] eqn:Hsp; cbn [length Nat.eqb negb]; eauto 10.
  apply Split_dash_two in Hsp as (Ht & Ha & Hc). cbn [nth].
  destruct (strconv.ParseInt a) as [start [err1|]] eqn:Pa; eauto 10.
  destruct (strconv.ParseInt c) as [end_ [err2|]] eqn:Pc; eauto 10.
  exfalso. apply (Hnf start end_). exists a, c. rewrite Hh, Ht. auto.
Qed.

(** [parseRangeOffset] reads the first of two dash-separated fields and
    nothing else. *)
Lemma parseRangeOffset_two_fields s e :
  no_dash s -> no_dash e ->
  parseRangeOffset ("bytes=" ++ s ++ "-" ++ e) = strconv.ParseInt s.
Proof.
  intros Hs He. unfold parseRangeOffset. rewrite HasPrefix_app, TrimPrefix_app. cbn [negb].
  assert (strings.Split (s ++ "-" ++ e) "-" = [s; e]) as -> by (apply Split_dash_two; auto).
  reflexivity.
Qed.

Lemma parseRangeOffset_other_fields rest :
  dashes rest <> 1%nat ->
  parseRangeOffset ("bytes=" ++ rest) = (0, Some (errorString "Invalid range format.")).
Proof.
  intros Hd. unfold parseRangeOffset. rewrite HasPrefix_app, TrimPrefix_app. cbn [negb].
  destruct (Split_dash rest) as (_ & _ & Hl). rewrite Hl.
  destruct (Nat.eqb_spec (S (dashes rest)) 2) as [E|_]; [lia|reflexivity].
Qed.

Lemma parseRangeOffset_no_prefix header :
  strings.HasPrefix header "bytes=" = false -> parseRangeOffset header = (0, None).
Proof. intros H. unfold parseRangeOffset. now rewrite H. Qed.

Lemma single_range_form_inv s e start end_ :
  no_dash s -> no_dash e ->
  single_range_form ("bytes=" ++ s ++ "-" ++ e) start end_ ->
  strconv.ParseInt s = (start, None) /\ strconv.ParseInt e = (end_, None).
Proof.
  intros Hs He (s' & e' & Heq & Hs' & He' & Ps & Pe).
  apply String.app_inj in Heq. symmetry in Heq.
  apply app_dash_inj in Heq as [-> ->]; auto.
Qed.

End ParseFacts.

Section ParseTheorems.
Local Open Scope string_scope.

Lemma single_range_form_dec header :
  (exists start end_, single_range_form header start end_)
  \/ (forall start end_, ~ single_range_form header start end_).
Proof.
  destruct (strings.HasPrefix header "bytes=") eqn:Hp.
  - apply HasPrefix_inv in Hp. rewrite Hp.
    set (t := strings.slice_from header (String.length "bytes=")). clearbody t.
    destruct (strings.Split t "-") as [|a [|c [|z l]]] eqn:Hsp.
    1,2,4: right; intros start end_ (s & e & Heq & Hs & He & _);
      apply String.app_inj in Heq; subst t;
      assert (strings.Split (s ++ "-" ++ e) "-" = [s; e]) as Hse by (apply Split_dash_two; auto);
      rewrite Hse in Hsp; discriminate Hsp.
    apply Split_dash_two in Hsp as (-> & Ha & Hc).
    destruct (strconv.ParseInt a) as [start [err1|]] eqn:Pa.
    { right. intros start' end_ H. apply single_range_form_inv in H as [H _]; auto. congruence. }
    destruct (strconv.ParseInt c) as [end_ [err2|]] eqn:Pc.
    { right. intros start' end' H. apply single_range_form_inv in H as [_ H]; auto. congruence. }
    left. exists start, end_, a, c. auto.
  - right. intros start end_ (s & e & -> & _). rewrite HasPrefix_app in Hp. discriminate Hp.
Qed.

(** C4 fails on ["bytes=5-abc"], whose second field is not an integer
    and which [parseRangeOffset] accepts with offset 5, and on
    ["items=0-9"], which it accepts with offset 0; neither header is of
    the form [bytes=<start>-<end>]. *)
Lemma C4_counterexample :
  (parseRangeOffset "bytes=5-abc" = (5, None)
   /\ forall start end_, ~ single_range_form "bytes=5-abc" start end_)
  /\ (parseRangeOffset "items=0-9" = (0, None)
      /\ forall start end_, ~ single_range_form "items=0-9" start end_).
Proof.
  split; split.
  - vm_compute. reflexivity.
  - intros start end_ H.
    apply (single_range_form_inv "5" "abc") in H as [_ H]; [|reflexivity|reflexivity].
    vm_compute in H. discriminate H.
  - vm_compute. reflexivity.
  - intros start end_ (s & e & H & _). vm_compute in H. discriminate H.
Qed.

(** C4, amended.  [parseRangeOffset] returns 0 and no error for the empty
    header and for every header that does not start with ["bytes="];
    after that prefix it fails with ["Invalid range format."] unless the
    rest holds exactly one dash, and otherwise returns what
    [strconv.ParseInt] returns for the field before the dash, whatever
    stands after it; so for a header of the form [bytes=<start>-<end>]
    it returns [start]. *)
Theorem C4_parseRangeOffset_first_field_only (header : string) :
  parseRangeOffset "" = (0, None)
  /\ (strings.HasPrefix header "bytes=" = false -> parseRangeOffset header = (0, None))
  /\ (forall rest, header = "bytes=" ++ rest -> dashes rest <> 1%nat ->
        parseRangeOffset header = (0, Some (errorString "Invalid range format.")))
  /\ (forall s e, header = "bytes=" ++ s ++ "-" ++ e -> no_dash s -> no_dash e ->
        parseRangeOffset header = strconv.ParseInt s)
  /\ (forall start end_, single_range_form header start end_ ->
        parseRangeOffset header = (start, None)).
Proof.
  split; [reflexivity|]. split; [apply parseRangeOffset_no_prefix|].
  split; [intros rest ->; apply parseRangeOffset_other_fields|].
  split; [intros s e ->; apply parseRangeOffset_two_fields|].
  intros start end_ (s & e & -> & Hs & He & Ps & _).
  rewrite parseRangeOffset_two_fields; assumption.
Qed.

(** C4, amended, on the first header of [TestParseRangeOffset]. *)
Lemma C4_witness : parseRangeOffset "bytes=1024-2048" = (1024, None).
Proof.
  apply (proj2 (proj2 (proj2 (proj2
           (C4_parseRangeOffset_first_field_only "bytes=1024-2048")))) 1024 2048).
  exists "1024", "2048". repeat split; vm_compute; reflexivity.
Defined.

(** C5.  [parseByteRange] returns no error for the empty header; for a
    non-empty header that is not of the form [bytes=<start>-<end>] it
    returns one of its format errors; for a header of that form whose
    bounds violate [start <= end] or [end < size] it returns
    ["range out of bounds"]; and for a header of that form within bounds
    it returns no error. *)
Theorem C5_parseByteRange_fails_iff_invalid (header : string) (size : Z) :
  (header = "" -> snd (parseByteRange header size) = None)
  /\ (header <> "" -> (forall start end_, ~ single_range_form header start end_) ->
        exists e, parseByteRange header size = (0, 0, Some e) /\ InvalidRangeFormat e)
  /\ (forall start end_, single_range_form header start end_ ->
        ~ (start <= end_ /\ end_ < size) ->
        exists e, parseByteRange header size = (0, 0, Some e) /\ RangeOutOfBounds e)
  /\ (forall start end_, single_range_form header start end_ ->
        start <= end_ -> end_ < size ->
        snd (parseByteRange header size) = None).
Proof.
  split; [intros ->; reflexivity|].
  split; [apply parseByteRange_malformed|].
  split; intros start end_ Hf.
  - intros Hb. rewrite (parseByteRange_single_range _ _ _ _ Hf).
    destruct (Z.gtb_spec start end_); cbn [orb].
    + eexists. split; reflexivity.
    + destruct (Z.geb_spec end_ size); [|lia]. eexists. split; reflexivity.
  - intros H1 H2. rewrite (parseByteRange_single_range _ _ _ _ Hf).
    destruct (Z.gtb_spec start end_); [lia|].
    destruct (Z.geb_spec end_ size); [lia|]. reflexivity.
Qed.

(** C5 on ["bytes=10-5"] with size 100, an example of the specification. *)
Lemma C5_witness :
  exists e, parseByteRange "bytes=10-5" 100 = (0, 0, Some e) /\ RangeOutOfBounds e.
Proof.
  apply (proj1 (proj2 (proj2 (C5_parseByteRange_fails_iff_invalid "bytes=10-5" 100)))
           10 5).
  - exists "10", "5". repeat split; vm_compute; reflexivity.
  - lia.
Defined.

(** C6.  [parseByteRange] returns [(0, size)] for the empty header and
    [(start, end - start + 1)] for a header [bytes=<start>-<end>] within
    bounds; a successful result is one of these two; and
    ["bytes=1024-2048"] with size 4096 gives [(1024, 1025)]. *)
Theorem C6_parseByteRange_success (header : string) (size : Z) :
  is_int64 size ->
  parseByteRange "" size = (0, size, None)
  /\ (forall start end_, single_range_form header start end_ ->
        start <= end_ -> end_ < size ->
        parseByteRange header size = (start, end_ - start + 1, None))
  /\ (forall offset length, parseByteRange header size = (offset, length, None) ->
        (header = "" /\ offset = 0 /\ length = size)
        \/ exists start end_, single_range_form header start end_
             /\ offset = start /\ length = end_ - start + 1)
  /\ parseByteRange "bytes=1024-2048" 4096 = (1024, 1025, None).
Proof.
  intros Hsize.
  pose proof (fun start end_ => parseByteRange_in_bounds header size start end_ Hsize)
    as Hok.
  split; [reflexivity|]. split; [exact Hok|]. split; [|vm_compute; reflexivity].
  intros offset length H.
  destruct (String.eqb_spec header "") as [->|Hne].
  - left. injection H as <- <-. auto.
  - right. destruct (single_range_form_dec header) as [(start & end_ & Hf)|Hnf].
    + exists start, end_. split; [exact Hf|].
      pose proof (parseByteRange_single_range _ size _ _ Hf) as Hc.
      destruct (Z.gtb_spec start end_); cbn [orb] in Hc; [rewrite Hc in H; discriminate H|].
      destruct (Z.geb_spec end_ size); [rewrite Hc in H; discriminate H|].
      rewrite (Hok start end_ Hf) in H by lia. injection H as <- <-. auto.
    + destruct (parseByteRange_malformed header size Hne Hnf) as (e & He & _).
      rewrite He in H. discriminate H.
Qed.

(** C6 at the example of the specification. *)
Lemma C6_witness :
  parseByteRange "" 4096 = (0, 4096, None)
  /\ (forall start end_, single_range_form "bytes=1024-2048" start end_ ->
        start <= end_ -> end_ < 4096 ->
        parseByteRange "bytes=1024-2048" 4096 = (start, end_ - start + 1, None))
  /\ (forall offset length, parseByteRange "bytes=1024-2048" 4096 = (offset, length, None) ->
        ("bytes=1024-2048" = "" /\ offset = 0 /\ length = 4096)
        \/ exists start end_, single_range_form "bytes=1024-2048" start end_
             /\ offset = start /\ length = end_ - start + 1)
  /\ parseByteRange "bytes=1024-2048" 4096 = (1024, 1025, None).
Proof.
  apply (C6_parseByteRange_success "bytes=1024-2048" 4096). unfold is_int64. lia.
Defined.

(** [TestParseRangeOffset] of stream_test.go. *)
Example TestParseRangeOffset :
  parseRangeOffset "bytes=1024-2048" = (1024, None)
  /\ parseRangeOffset "bytes=0-100" = (0, None)
  /\ parseRangeOffset "" = (0, None).
Proof. repeat split; vm_compute; reflexivity. Qed.

End ParseTheorems.

(** ** The sink *)

Lemma response_of_snoc w c :
  http.response_of (w ++ [c]) = http.apply_call (http.response_of w) c.
Proof. unfold http.response_of. now rewrite fold_left_app. Qed.

Lemma body_commit r code : http.body (http.commit r code) = http.body r.
Proof. unfold http.commit. destruct (http.committed r); reflexivity. Qed.

Lemma body_snoc_header w k v :
  http.body (http.response_of (w ++ [http.SetHeader k v])) = http.body (http.response_of w).
Proof. rewrite response_of_snoc. reflexivity. Qed.

Lemma body_snoc_WriteHeader w code :
  http.body (http.response_of (w ++ [http.WriteHeader code])) = http.body (http.response_of w).
Proof. rewrite response_of_snoc. apply body_commit. Qed.

Lemma body_snoc_Write w p :
  http.body (http.response_of (w ++ [http.Write p])) = http.body (http.response_of w) ++ p.
Proof. rewrite response_of_snoc. cbn [http.apply_call http.body]. now rewrite body_commit. Qed.

Lemma headers_first_writes is_committed ws :
  Forall is_Write ws -> headers_first is_committed ws = true.
Proof.
  intros Hws. revert is_committed.
  induction Hws as [|c ws [p ->] _ IH]; intros ic; [reflexivity|]. apply IH.
Qed.

Lemma headers_first_app_writes is_committed l ws :
  Forall is_Write ws ->
  headers_first is_committed (l ++ ws) = headers_first is_committed l.
Proof.
  intros Hws. revert is_committed. induction l as [|c l IH]; intros ic.
  - now apply headers_first_writes.
  - destruct c; cbn [app headers_first]; now rewrite IH.
Qed.

(** ** The stream cipher as a state machine *)


Section StreamFacts.

Import cipher.

Lemma XORKeyStream_app x s1 s2 :
  ctr_wf x ->
  XORKeyStream x (s1 ++ s2)
  = (fst (XORKeyStream (fst (XORKeyStream x s1)) s2),
     snd (XORKeyStream x s1) ++ snd (XORKeyStream (fst (XORKeyStream x s1)) s2))
  /\ ctr_wf (fst (XORKeyStream x s1)).
Proof.
  revert x. induction s1 as [|s s1 IH]; intros x Hwf.
  - cbn [app XORKeyStream fst snd]. split; [apply surjective_pairing | exact Hwf].
  - cbn [app XORKeyStream].
    set (x1 := if out x is [] then refill x else x).
    assert (ctr_wf x1 /\ out x1 <> []) as [Hwf1 Hne].
    { unfold x1. destruct (out x) as [|k o] eqn:Eo.
      - split.
        + unfold ctr_wf, refill. cbn [ctr_ b]. now rewrite increment_length.
        + unfold refill. cbn [out]. rewrite Eo. cbn [app].
          pose proof (Encrypt_length (b x) (ctr_ x) Hwf) as HE.
          pose proof (BlockSize_pos (b x)).
          destruct (Encrypt (b x) (ctr_ x)); [cbn in HE; lia | discriminate].
      - split; [exact Hwf | rewrite Eo; discriminate]. }
    destruct (out x1) as [|k o] eqn:Eo1; [contradiction|].
    specialize (IH {| b := b x1; ctr_ := ctr_ x1; out := o |} Hwf1) as [IH1 IH2].
    rewrite IH1.
    destruct (XORKeyStream {| b := b x1; ctr_ := ctr_ x1; out := o |} s1) as [x' dst].
    cbn [fst snd] in *. split; [reflexivity | exact IH2].
Qed.

(** ** [io.Copy] *)

Lemma copy_chunks_writes w x cs :
  exists ws, fst (io.copy_chunks w x cs) = w ++ ws /\ Forall is_Write ws.
Proof.
  revert w x. induction cs as [|c cs IH]; intros w x; cbn [io.copy_chunks].
  - exists []. rewrite app_nil_r. auto.
  - destruct (XORKeyStream x c) as [x' dst].
    destruct c as [|c0 c].
    + apply IH.
    + destruct (IH (w ++ [http.Write dst]) x') as (ws & -> & Hws).
      exists (http.Write dst :: ws). rewrite <- app_assoc. split; [reflexivity|].
      constructor; [eexists; reflexivity | exact Hws].
Qed.

Lemma copy_chunks_body w x cs :
  ctr_wf x ->
  http.body (http.response_of (fst (io.copy_chunks w x cs)))
  = http.body (http.response_of w) ++ snd (XORKeyStream x (concat cs)).
Proof.
  revert w x. induction cs as [|c cs IH]; intros w x Hwf; cbn [io.copy_chunks concat].
  - cbn. now rewrite app_nil_r.
  - destruct (XORKeyStream_app x c (concat cs) Hwf) as [Happ Hwf'].
    rewrite Happ. cbn [snd]. destruct c as [|c0 c].
    + cbn [XORKeyStream fst snd app] in *. now apply IH.
    + destruct (XORKeyStream x (c0 :: c)) as [x' dst]. cbn [fst snd] in *.
      rewrite IH by assumption. rewrite body_snoc_Write. now rewrite <- app_assoc.
Qed.

End StreamFacts.

(** ** The relays *)

Lemma committed_stable r c l :
  http.committed r = Some c -> http.committed (fold_left http.apply_call l r) = Some c.
Proof.
  revert r. induction l as [|x l IH]; intros r Hr; [exact Hr|].
  cbn [fold_left]. apply IH.
  destruct x; cbn [http.apply_call http.committed]; unfold http.commit; rewrite ?Hr; auto.
Qed.

Lemma emitted_app {A} w evs (a : A) : emitted w (w ++ evs, a) = evs.
Proof. unfold emitted. cbn [fst]. now rewrite drop_app_length. Qed.

Section RelayFacts.

Context `{AES : aes.AES} `{Client : http.Client}.

Lemma NewCipher_valid key :
  valid_key key -> aes.NewCipher key = inl (aes.cipher_of_key key).
Proof.
  unfold valid_key, aes.NewCipher. intros [ -> | [ -> | -> ] ]; reflexivity.
Qed.

Lemma NewCTR_aes key iv :
  length iv = 16%nat ->
  cipher.NewCTR (aes.cipher_of_key key) iv
  = Return {| cipher.b := aes.cipher_of_key key; cipher.ctr_ := iv; cipher.out := [] |}.
Proof.
  intros Hiv. unfold cipher.NewCTR. rewrite aes.aes_BlockSize, Hiv. reflexivity.
Qed.

Lemma Copy_writes w stream r :
  exists ws, io.Copy w stream r = (w ++ ws, http.read_err r) /\ Forall is_Write ws.
Proof.
  unfold io.Copy. destruct (copy_chunks_writes w stream (http.chunks r)) as (ws & -> & Hws).
  eauto.
Qed.

(** Replace the [io.Copy] of the goal by the sink it leaves behind. *)
Ltac copy_calls ws Hws :=
  match goal with
  | |- context [io.Copy ?w0 ?s ?r] =>
      destruct (Copy_writes w0 s r) as (ws & -> & Hws)
  end.

(** [StreamFromByte] commits before it sets its header. *)
Lemma StreamFromByte_calls w data size key iv :
  valid_key key -> length iv = 16%nat ->
  exists ws,
    StreamFromByte w data size key iv
    = (w ++ [http.WriteHeader 200;
             http.SetHeader "Content-Type" "application/octet-stream"] ++ ws,
       Return None)
    /\ Forall is_Write ws.
Proof.
  intros Hk Hiv. unfold StreamFromByte.
  rewrite (NewCipher_valid key Hk), (NewCTR_aes key iv Hiv).
  copy_calls ws Hws.
  exists ws. split; [|exact Hws]. cbn [http.read_err io.NewSectionReader].
  rewrite <- !app_assoc. reflexivity.
Qed.

Lemma StreamFromUrl_calls w fileUrl key iv resp :
  valid_key key -> length iv = 16%nat ->
  http.NewRequest_err fileUrl = None ->
  http.Do {| http.Method := "GET"; http.URL := fileUrl; http.ReqHeader := ∅ |} = inl resp ->
  exists ws,
    StreamFromUrl w fileUrl key iv
    = (w ++ [http.WriteHeader 200;
             http.SetHeader "Content-Type" "application/octet-stream"] ++ ws,
       Return (http.read_err (http.Body resp)))
    /\ Forall is_Write ws.
Proof.
  intros Hk Hiv Hreq Hdo. unfold StreamFromUrl, http.NewRequest.
  rewrite Hreq, Hdo, (NewCipher_valid key Hk), (NewCTR_aes key iv Hiv).
  copy_calls ws Hws.
  exists ws. split; [|exact Hws]. rewrite <- !app_assoc. reflexivity.
Qed.

Lemma StreamFromByteWithRange_calls w data size key iv byteRange offset length_ :
  valid_key key -> length iv = 16%nat ->
  parseByteRange byteRange size = (offset, length_, None) ->
  exists pre ws,
    StreamFromByteWithRange w data size key iv byteRange
    = (w ++ pre ++ [http.SetHeader "Content-Type" "application/octet-stream"] ++ ws,
       Return None)
    /\ Forall is_Write ws
    /\ (pre = [http.WriteHeader 200]
        \/ exists cr, pre = [http.WriteHeader 206; http.SetHeader "Content-Range" cr]).
Proof.
  intros Hk Hiv Hp. unfold StreamFromByteWithRange. rewrite Hp.
  destruct (adjustIVForOffset_length iv offset Hiv) as (iv' & -> & Hiv').
  rewrite (NewCipher_valid key Hk), (NewCTR_aes key iv' Hiv').
  copy_calls ws Hws.
  destruct (negb (String.eqb byteRange "")).
  - eexists [_; _], ws. split; [|split; [exact Hws|right; eexists; reflexivity]].
    cbn [http.read_err io.NewSectionReader]. rewrite <- !app_assoc. reflexivity.
  - exists [http.WriteHeader 200], ws. split; [|split; [exact Hws|left; reflexivity]].
    cbn [http.read_err io.NewSectionReader]. rewrite <- !app_assoc. reflexivity.
Qed.

(** [StreamFromUrlWithRange] sets every header before it commits. *)
Lemma StreamFromUrlWithRange_headers_first w fileUrl key iv byteRange :
  headers_first false (emitted w (StreamFromUrlWithRange w fileUrl key iv byteRange)) = true.
Proof.
  assert (Hnil : forall A (a : A), headers_first false (emitted w (w, a)) = true).
  { intros A a. unfold emitted. cbn [fst]. now rewrite drop_all. }
  unfold StreamFromUrlWithRange.
  destruct (http.NewRequest "GET" fileUrl) as [req|err]; [|apply Hnil].
  destruct (http.Do _) as [resp|err]; [|apply Hnil].
  destruct (parseRangeOffset byteRange) as [offset [err|]]; [apply Hnil|].
  destruct (adjustIVForOffset iv offset) as [adjustedIV|msg]; [|apply Hnil].
  destruct (aes.NewCipher key) as [block|err]; [|apply Hnil].
  destruct (cipher.NewCTR block adjustedIV) as [stream|msg]; [|apply Hnil].
  copy_calls ws Hws.
  destruct (_ && _); rewrite <- !app_assoc, emitted_app; cbn [app headers_first negb andb];
    now apply headers_first_writes.
Qed.

End RelayFacts.

(** Once committed with an empty header map, the header block stays
    empty whatever is called afterwards. *)
Lemma committed_header_commit_first code k v ws :
  committed_header ([http.WriteHeader code; http.SetHeader k v] ++ ws) = ∅.
Proof.
  unfold committed_header, http.response_of. cbn [app fold_left].
  rewrite (committed_stable _ (code, ∅)); reflexivity.
Qed.

Lemma adjustIVForOffset_zero iv :
  length iv = 16%nat -> adjustIVForOffset iv 0 = Return iv.
Proof.
  intros Hlen. rewrite adjustIVForOffset_iter_increment; [reflexivity|assumption|lia|].
  pose proof (be_uint_range (drop 8 iv)) as H. rewrite length_drop, Hlen in H.
  change (256 ^ Z.of_nat (16 - 8)) with (2 ^ 64) in H. change (0 / 16) with 0. lia.
Qed.

Section RelayTheorems.

Context `{AES : aes.AES} `{Client : http.Client}.

(** C3 on the code.  With a valid key and a 16-byte IV, [StreamFromByte],
    [StreamFromByteWithRange] (once the range parses) and [StreamFromUrl]
    (once the fetch succeeds) call [WriteHeader] before they set
    [Content-Type] (and [Content-Range]): the order the claim asks for is
    broken, and on a fresh sink the committed header block is empty.
    Only [StreamFromUrlWithRange] sets every header first. *)
Theorem C3_headers_set_after_WriteHeader
    (w : http.ResponseWriter) (data key iv : list byte) (size : Z)
    (fileUrl byteRange : string) :
  valid_key key -> length iv = 16%nat ->
  (headers_first false (emitted w (StreamFromByte w data size key iv)) = false
   /\ committed_header (fst (StreamFromByte [] data size key iv)) = ∅)
  /\ (snd (parseByteRange byteRange size) = None ->
      headers_first false
        (emitted w (StreamFromByteWithRange w data size key iv byteRange)) = false
      /\ committed_header (fst (StreamFromByteWithRange [] data size key iv byteRange)) = ∅)
  /\ (forall resp,
        http.NewRequest_err fileUrl = None ->
        http.Do {| http.Method := "GET"; http.URL := fileUrl; http.ReqHeader := ∅ |}
          = inl resp ->
        headers_first false (emitted w (StreamFromUrl w fileUrl key iv)) = false
        /\ committed_header (fst (StreamFromUrl [] fileUrl key iv)) = ∅)
  /\ headers_first false
       (emitted w (StreamFromUrlWithRange w fileUrl key iv byteRange)) = true.
Proof.
  intros Hk Hiv. split; [|split; [|split]].
  - destruct (StreamFromByte_calls w data size key iv Hk Hiv) as (ws & -> & Hws).
    destruct (StreamFromByte_calls [] data size key iv Hk Hiv) as (ws0 & -> & Hws0).
    rewrite emitted_app, headers_first_app_writes by assumption.
    split; [reflexivity|]. cbn [fst]. rewrite app_nil_l.
    apply committed_header_commit_first.
  - intros Hp. destruct (parseByteRange byteRange size) as [[offset length_] err] eqn:E.
    cbn [snd] in Hp. subst err.
    destruct (StreamFromByteWithRange_calls w data size key iv byteRange _ _ Hk Hiv E)
      as (pre & ws & -> & Hws & Hpre).
    destruct (StreamFromByteWithRange_calls [] data size key iv byteRange _ _ Hk Hiv E)
      as (pre0 & ws0 & -> & Hws0 & Hpre0).
    rewrite emitted_app. cbn [fst]. rewrite app_nil_l. split.
    + rewrite (app_assoc pre), headers_first_app_writes by assumption.
      destruct Hpre as [->|[cr ->]]; reflexivity.
    + unfold committed_header, http.response_of.
      destruct Hpre0 as [->|[cr ->]]; cbn [app fold_left];
        [rewrite (committed_stable _ (200, ∅)) | rewrite (committed_stable _ (206, ∅))];
        reflexivity.
  - intros resp Hreq Hdo.
    destruct (StreamFromUrl_calls w fileUrl key iv resp Hk Hiv Hreq Hdo) as (ws & -> & Hws).
    destruct (StreamFromUrl_calls [] fileUrl key iv resp Hk Hiv Hreq Hdo) as (ws0 & -> & Hws0).
    rewrite emitted_app, headers_first_app_writes by assumption.
    split; [reflexivity|]. cbn [fst]. rewrite app_nil_l.
    apply committed_header_commit_first.
  - apply StreamFromUrlWithRange_headers_first.
Qed.

(** C7.  When [parseByteRange] returns an error, and in particular for a
    header [bytes=<start>-<end>] with [end >= size],
    [StreamFromByteWithRange] returns that error and the sink is exactly
    what it was: no header set, nothing committed, nothing written. *)
Theorem C7_range_error_leaves_sink_untouched
    (w : http.ResponseWriter) (data key iv : list byte) (size : Z) (byteRange : string) :
  (forall err, snd (parseByteRange byteRange size) = Some err ->
     StreamFromByteWithRange w data size key iv byteRange = (w, Return (Some err)))
  /\ (forall start end_, single_range_form byteRange start end_ -> size <= end_ ->
        StreamFromByteWithRange w data size key iv byteRange
        = (w, Return (Some (errorString "range out of bounds")))).
Proof.
  assert (H1 : forall err, snd (parseByteRange byteRange size) = Some err ->
     StreamFromByteWithRange w data size key iv byteRange = (w, Return (Some err))).
  { intros err Hp. unfold StreamFromByteWithRange.
    destruct (parseByteRange byteRange size) as [[offset length_] e]. cbn [snd] in Hp.
    now subst e. }
  split; [exact H1|]. intros start end_ Hf Hb. apply H1.
  rewrite (parseByteRange_single_range _ _ _ _ Hf).
  destruct (Z.geb_spec end_ size); [|lia]. now rewrite orb_true_r.
Qed.

(** C8.  [adjustIVForOffset] returns a 16-byte IV for every 16-byte IV
    and panics with ["IV must be 16 bytes."] for every other length; the
    panic is not an [error] value: a relay that reaches the call with
    such an IV panics too. *)
Theorem C8_adjustIV_requires_16_bytes (iv : list byte) (offset : Z) :
  (length iv = 16%nat ->
     exists iv', adjustIVForOffset iv offset = Return iv' /\ length iv' = 16%nat)
  /\ (length iv <> 16%nat ->
      adjustIVForOffset iv offset = Panic "IV must be 16 bytes.")
  /\ (length iv <> 16%nat ->
      forall w data size key byteRange,
        snd (parseByteRange byteRange size) = None ->
        StreamFromByteWithRange w data size key iv byteRange
        = (w, Panic "IV must be 16 bytes.")).
Proof.
  split; [apply adjustIVForOffset_length|]. split; [apply adjustIVForOffset_panics|].
  intros Hlen w data size key byteRange Hp. unfold StreamFromByteWithRange.
  destruct (parseByteRange byteRange size) as [[off length_] err]. cbn [snd] in Hp.
  subst err. now rewrite adjustIVForOffset_panics.
Qed.

(** C10.  For a non-empty header without the prefix ["bytes="],
    [parseRangeOffset] returns offset 0 and no error, and
    [StreamFromUrlWithRange] does not reject the request: it forwards the
    header upstream and, with a valid key, a 16-byte IV and a successful
    fetch, relays the upstream body xor-ed with the key stream of the
    unadjusted IV, that is, from offset zero. *)
Theorem C10_unprefixed_range_is_offset_zero
    (w : http.ResponseWriter) (fileUrl : string) (key iv : list byte)
    (header : string) (resp : http.Response) :
  header <> ""%string -> strings.HasPrefix header "bytes=" = false ->
  parseRangeOffset header = (0, None)
  /\ (valid_key key -> length iv = 16%nat ->
      http.NewRequest_err fileUrl = None ->
      http.Do {| http.Method := "GET"; http.URL := fileUrl;
                 http.ReqHeader := http.Header_Set ∅ "Range" header |} = inl resp ->
      exists w' stream,
        StreamFromUrlWithRange w fileUrl key iv header
        = (w', Return (http.read_err (http.Body resp)))
        /\ cipher.NewCTR (aes.cipher_of_key key) iv = Return stream
        /\ http.body (http.response_of w')
           = http.body (http.response_of w)
             ++ snd (cipher.XORKeyStream stream (concat (http.chunks (http.Body resp))))).
Proof.
  intros Hne Hp. pose proof (parseRangeOffset_no_prefix header Hp) as Hoff.
  split; [exact Hoff|]. intros Hk Hiv Hreq Hdo.
  unfold StreamFromUrlWithRange, http.NewRequest. rewrite Hreq.
  destruct (String.eqb_spec header "") as [|_]; [contradiction|]. cbn [negb http.Method http.URL http.ReqHeader].
  rewrite Hdo, Hoff, (adjustIVForOffset_zero iv Hiv), (NewCipher_valid key Hk), (NewCTR_aes key iv Hiv).
  set (stream := {| cipher.b := aes.cipher_of_key key; cipher.ctr_ := iv; cipher.out := [] |}).
  assert (ctr_wf stream) as Hwf by (unfold ctr_wf; cbn; now rewrite aes.aes_BlockSize).
  unfold io.Copy.
  match goal with |- context [io.copy_chunks ?w0 _ _] => set (w1 := w0) end.
  assert (http.body (http.response_of w1) = http.body (http.response_of w)) as Hb.
  { unfold w1. destruct (_ && _);
      rewrite ?body_snoc_WriteHeader, ?body_snoc_header; reflexivity. }
  eexists. exists stream. split; [reflexivity|]. split; [reflexivity|].
  rewrite copy_chunks_body by assumption. now rewrite Hb.
Qed.

End RelayTheorems.

Lemma valid_examplekey : valid_key examplekey.
Proof. right. right. reflexivity. Qed.

(** C3 on the inputs of [TestStreamFromByte]. *)
Lemma C3_witness :
  headers_first false
    (emitted [] (@StreamFromByte test_aes [] sourceContent 26 examplekey (make 16))) = false
  /\ committed_header (fst (@StreamFromByte test_aes [] sourceContent 26 examplekey (make 16))) = ∅.
Proof.
  exact (proj1 (@C3_headers_set_after_WriteHeader test_aes mockServer
                  [] sourceContent examplekey (make 16) 26 "http://mock" "bytes=5-20"
                  valid_examplekey eq_refl)).
Defined.

(** C8 on the IV of the unit test. *)
Lemma C8_witness :
  exists iv', adjustIVForOffset test_iv 32 = Return iv' /\ length iv' = 16%nat.
Proof.
  exact (proj1 (@C8_adjustIV_requires_16_bytes test_aes test_iv 32) eq_refl).
Defined.

(** C7 on the out-of-bounds example of the specification. *)
Lemma C7_witness :
  @StreamFromByteWithRange test_aes [] sourceContent 26 examplekey (make 16) "bytes=0-200"
  = ([], Return (Some (errorString "range out of bounds"))).
Proof.
  apply (proj1 (@C7_range_error_leaves_sink_untouched test_aes
                  [] sourceContent examplekey (make 16) 26 "bytes=0-200")).
  vm_compute. reflexivity.
Defined.

(** C10 on the header ["6-25"] against the mock server. *)
Lemma C10_witness :
  parseRangeOffset "6-25" = (0, None)
  /\ exists w' stream,
       @StreamFromUrlWithRange test_aes mockServer [] "http://mock" examplekey (make 16) "6-25"
       = (w', Return None)
       /\ cipher.NewCTR identity_block (make 16) = Return stream
       /\ http.body (http.response_of w')
          = [] ++ snd (cipher.XORKeyStream stream (concat [sourceContent])).
Proof.
  destruct (@C10_unprefixed_range_is_offset_zero test_aes mockServer
              [] "http://mock" examplekey (make 16) "6-25"
              {| http.StatusCode := http.StatusOK;
                 http.RespHeader := http.Header_Set ∅ "Content-Length" "26";
                 http.ContentLength := 26;
                 http.Body := {| http.chunks := [sourceContent];
                                 http.read_err := None |} |})
    as [H1 H2]; [discriminate | reflexivity |].
  split; [exact H1|].
  apply H2; [exact valid_examplekey | reflexivity | reflexivity | reflexivity].
Defined.

(** ** The counter resynchroniser in memory *)

Section MemFacts.
Local Open Scope nat_scope.

Lemma contents_length h s :
  Mem.valid h s -> length (Mem.contents h s) = Mem.len s.
Proof.
  intros (a & Ha & Hcap & Hlen). unfold Mem.contents. rewrite Ha.
  rewrite length_take, length_drop. lia.
Qed.

Lemma contents_insert_ne h s l a :
  Mem.base s <> l -> Mem.contents (<[l := a]> h) s = Mem.contents h s.
Proof.
  intros Hne. unfold Mem.contents. now rewrite lookup_insert_ne.
Qed.

Lemma write_at_0_all (zeros bs : list byte) :
  length zeros = length bs -> write_at zeros 0 bs = bs.
Proof.
  intros Hl. unfold write_at. rewrite take_0, drop_ge by (cbn; lia). cbn [app]. apply app_nil_r.
Qed.

Lemma write_at_tail (iv bs : list byte) n :
  length iv = n + length bs -> write_at iv n bs = take n iv ++ bs.
Proof.
  intros Hl. unfold write_at. rewrite (drop_ge iv) by lia. now rewrite app_nil_r.
Qed.

(** C9.  Run on any heap in which the input slice is valid and 16 bytes
    long, [adjustIVForOffset] returns a slice on a freshly allocated
    array; every array that existed before, the input's among them, holds
    what it held; the first eight bytes of the result are the first eight
    bytes of the input; and the bytes of the result are those of the
    embedding on values. *)
Theorem C9_adjustIV_keeps_prefix_and_input
    (h : gmap nat (list byte)) (originalIV : Mem.slice) (offset : Z) :
  Mem.valid h originalIV -> Mem.len originalIV = 16 ->
  exists newIV h',
    Mem.adjustIVForOffset originalIV offset h = Return (newIV, h')
    /\ (forall l, l ∈ dom h -> h' !! l = h !! l)
    /\ (Mem.base newIV ∉ dom h)
    /\ Mem.contents h' originalIV = Mem.contents h originalIV
    /\ take 8 (Mem.contents h' newIV) = take 8 (Mem.contents h originalIV)
    /\ Return (Mem.contents h' newIV) = adjustIVForOffset (Mem.contents h originalIV) offset.
Proof.
  intros Hv Hlen. pose proof (contents_length h originalIV Hv) as Hcl. rewrite Hlen in Hcl.
  destruct Hv as (a & Ha & Hcap & Hlc).
  set (iv := Mem.contents h originalIV) in *.
  set (l := fresh (dom h)).
  assert (l ∉ dom h) as Hfresh by apply is_fresh.
  assert (Mem.base originalIV <> l) as Hne.
  { intros E. apply Hfresh. rewrite <- E. apply elem_of_dom. eauto. }
  set (counter := uint64 (be_uint (drop 8 iv) + uint64 (int64 (Z.quot offset (int64 16))))).
  set (newIV := {| Mem.base := l; Mem.off := 0; Mem.len := 16; Mem.cap := 16 |}).
  set (h' := <[l := take 8 iv ++ BigEndian.bytes_of_uint64 counter]> h).
  exists newIV, h'.
  assert (Hrun : Mem.adjustIVForOffset originalIV offset h = Return (newIV, h')).
  { unfold Mem.adjustIVForOffset. rewrite Hlen. cbn [Nat.eqb negb].
    unfold Mem.mbind at 1. unfold Mem.make at 1. fold l. fold newIV.
    unfold Mem.mbind at 1. unfold Mem.copy, Mem.mbind at 1, Mem.load at 1.
    rewrite (contents_insert_ne h originalIV l _ Hne). fold iv.
    unfold Mem.mbind at 1, Mem.store at 1. cbn [Mem.base newIV Mem.len Mem.off].
    rewrite lookup_insert_eq, Hlen. change (Nat.min 16 16) with 16.
    rewrite (take_ge iv) by lia.
    rewrite write_at_0_all by (rewrite length_replicate; lia).
    rewrite insert_insert_eq. unfold Mem.ret at 1.
    unfold Mem.mbind at 1, Mem.reslice at 1.
    assert (((16 <? 8) || (Mem.cap originalIV <? 16)) = false) as ->.
    { apply orb_false_iff. split; [reflexivity|]. apply Nat.ltb_ge. lia. }
    unfold Mem.ret at 1.
    unfold Mem.mbind at 1, Mem.Uint64, Mem.mbind at 1, Mem.load at 1.
    assert (Mem.contents (<[l:=iv]> h)
              {| Mem.base := Mem.base originalIV; Mem.off := Mem.off originalIV + 8;
                 Mem.len := 16 - 8; Mem.cap := Mem.cap originalIV - 8 |} = drop 8 iv) as ->.
    { unfold Mem.contents. cbn [Mem.base Mem.off Mem.len].
      rewrite lookup_insert_ne by (intros E; apply Hne; now rewrite E).
      unfold iv, Mem.contents. rewrite Ha, Hlen.
      rewrite skipn_firstn_comm, drop_drop. reflexivity. }
    rewrite Uint64_be_uint by (rewrite length_drop; lia).
    rewrite (take_ge (drop 8 iv)) by (rewrite length_drop; lia).
    unfold Mem.lift at 1. fold counter.
    unfold Mem.mbind at 1, Mem.reslice at 1. cbn [Mem.cap newIV Nat.ltb Nat.leb orb].
    unfold Mem.ret at 1.
    unfold Mem.mbind at 1, Mem.PutUint64. cbn [Mem.len Nat.sub Nat.ltb Nat.leb].
    unfold Mem.store. cbn [Mem.base Mem.off Nat.add].
    rewrite lookup_insert_eq, insert_insert_eq.
    change (Mem.off newIV + 8) with 8.
    rewrite write_at_tail by (cbn [length BigEndian.bytes_of_uint64]; lia).
    reflexivity. }
  split; [exact Hrun|].
  assert (Hnew : Mem.contents h' newIV = take 8 iv ++ BigEndian.bytes_of_uint64 counter).
  { unfold Mem.contents, h'. cbn [Mem.base Mem.off Mem.len newIV].
    rewrite lookup_insert_eq. cbn [drop]. apply take_ge.
    rewrite length_app, length_take. cbn [length BigEndian.bytes_of_uint64]. lia. }
  split; [|split; [|split; [|split]]].
  - intros l' Hl'. unfold h'. apply lookup_insert_ne. intros <-. contradiction.
  - exact Hfresh.
  - unfold h'. now apply contents_insert_ne.
  - rewrite Hnew. rewrite take_app_length' by (rewrite length_take; lia). reflexivity.
  - rewrite Hnew. symmetry. apply adjustIVForOffset_eq. exact Hcl.
Qed.

(** C9 on the heap of the unit test. *)
Lemma C9_witness :
  exists newIV h',
    Mem.adjustIVForOffset test_slice 32 test_heap = Return (newIV, h')
    /\ (forall l, l ∈ dom test_heap -> h' !! l = test_heap !! l)
    /\ (Mem.base newIV ∉ dom test_heap)
    /\ Mem.contents h' test_slice = Mem.contents test_heap test_slice
    /\ take 8 (Mem.contents h' newIV) = take 8 (Mem.contents test_heap test_slice)
    /\ Return (Mem.contents h' newIV)
       = adjustIVForOffset (Mem.contents test_heap test_slice) 32.
Proof.
  apply (C9_adjustIV_keeps_prefix_and_input test_heap test_slice 32).
  - exists test_iv. split; [reflexivity|]. split; cbn; lia.
  - reflexivity.
Defined.

End MemFacts.

(** ** End to end *)

Section RoundTrip.

Import cipher.

Lemma xor_byte_involutive s k : xor_byte (xor_byte s k) k = s.
Proof.
  apply Z_of_byte_inj. rewrite !Z_of_xor_byte.
  now rewrite Z.lxor_assoc, Z.lxor_nilpotent, Z.lxor_0_r.
Qed.

Lemma zip_with_xor_involutive src ks :
  (length src <= length ks)%nat ->
  zip_with xor_byte (zip_with xor_byte src ks) ks = src.
Proof.
  revert ks. induction src as [|s src IH]; intros [|k ks] Hl; cbn in Hl; try lia; [reflexivity..|].
  cbn [zip_with]. rewrite xor_byte_involutive, IH by lia. reflexivity.
Qed.

Lemma XORKeyStream_length x src :
  ctr_wf x -> length (snd (XORKeyStream x src)) = length src.
Proof.
  intros Hwf. rewrite (XORKeyStream_keystream x src (length src)); [|exact Hwf|].
  - rewrite length_zip_with, length_app, keystream_bytes_length by exact Hwf.
    pose proof (BlockSize_pos (b x)). nia.
  - pose proof (BlockSize_pos (b x)). nia.
Qed.

(** Applying the key stream twice from the same state gives the source
    back: decryption is encryption. *)
Lemma XORKeyStream_involutive x src :
  ctr_wf x -> snd (XORKeyStream x (snd (XORKeyStream x src))) = src.
Proof.
  intros Hwf. pose proof (BlockSize_pos (b x)) as Hpos.
  rewrite (XORKeyStream_keystream x (snd _) (length src));
    [|exact Hwf|rewrite XORKeyStream_length by exact Hwf; nia].
  rewrite (XORKeyStream_keystream x src (length src)); [|exact Hwf|nia].
  apply zip_with_xor_involutive.
  rewrite length_app, keystream_bytes_length by exact Hwf. nia.
Qed.

Lemma XORKeyStream_take x src n :
  ctr_wf x -> snd (XORKeyStream x (take n src)) = take n (snd (XORKeyStream x src)).
Proof.
  intros Hwf. pose proof (BlockSize_pos (b x)) as Hpos.
  rewrite (XORKeyStream_keystream x (take n src) (length src));
    [|exact Hwf|rewrite length_take; nia].
  rewrite (XORKeyStream_keystream x src (length src)); [|exact Hwf|nia].
  rewrite zip_with_take. symmetry. apply zip_with_take_r'. rewrite length_take. lia.
Qed.

Lemma concat_chunks_of fuel l :
  (length l <= fuel)%nat -> concat (io.chunks_of fuel l) = l.
Proof.
  revert l. induction fuel as [|fuel IH]; intros l Hl.
  - destruct l; [reflexivity | cbn in Hl; lia].
  - destruct l as [|x l]; [reflexivity|].
    cbn [io.chunks_of concat]. rewrite IH; [apply take_drop|].
    rewrite length_drop. cbn [length] in *.
    assert (1 <= io.bufSize)%nat by (unfold io.bufSize; lia). lia.
Qed.

End RoundTrip.

Section EndToEnd.

Context `{AES : aes.AES}.

Lemma aes_stream_wf key iv :
  length iv = 16%nat ->
  ctr_wf {| cipher.b := aes.cipher_of_key key; cipher.ctr_ := iv; cipher.out := [] |}.
Proof. intros Hiv. unfold ctr_wf. cbn. now rewrite aes.aes_BlockSize. Qed.

Lemma section_reader_bytes data off n :
  concat (http.chunks (io.NewSectionReader data off n)) = io.section data off n.
Proof. unfold io.NewSectionReader. cbn [http.chunks]. now apply concat_chunks_of. Qed.

(** What [StreamFromByte] writes: the first [size] bytes of [data] under
    the key stream of [iv]. *)
Lemma StreamFromByte_body w data size key iv :
  valid_key key -> length iv = 16%nat ->
  exists w' stream,
    StreamFromByte w data size key iv = (w', Return None)
    /\ cipher.NewCTR (aes.cipher_of_key key) iv = Return stream
    /\ ctr_wf stream
    /\ http.body (http.response_of w')
       = http.body (http.response_of w)
         ++ snd (cipher.XORKeyStream stream (io.section data 0 size)).
Proof.
  intros Hk Hiv. unfold StreamFromByte.
  rewrite (NewCipher_valid key Hk), (NewCTR_aes key iv Hiv).
  pose proof (aes_stream_wf key iv Hiv) as Hwf.
  eexists. eexists. split; [reflexivity|]. split; [reflexivity|]. split; [exact Hwf|].
  unfold io.Copy. cbn [fst]. rewrite copy_chunks_body by exact Hwf.
  rewrite section_reader_bytes, body_snoc_header, body_snoc_WriteHeader. reflexivity.
Qed.

(** What [StreamFromByteWithRange] writes: the requested bytes of [data]
    under the key stream of the adjusted IV. *)
Lemma StreamFromByteWithRange_body w data size key iv byteRange offset length_ :
  valid_key key -> length iv = 16%nat ->
  parseByteRange byteRange size = (offset, length_, None) ->
  exists w' iv' stream,
    StreamFromByteWithRange w data size key iv byteRange = (w', Return None)
    /\ adjustIVForOffset iv offset = Return iv'
    /\ cipher.NewCTR (aes.cipher_of_key key) iv' = Return stream
    /\ ctr_wf stream
    /\ http.body (http.response_of w')
       = http.body (http.response_of w)
         ++ snd (cipher.XORKeyStream stream (io.section data offset length_)).
Proof.
  intros Hk Hiv Hp. unfold StreamFromByteWithRange. rewrite Hp.
  destruct (adjustIVForOffset_length iv offset Hiv) as (iv' & Hadj & Hiv').
  rewrite Hadj, (NewCipher_valid key Hk), (NewCTR_aes key iv' Hiv').
  pose proof (aes_stream_wf key iv' Hiv') as Hwf.
  eexists. exists iv'. eexists.
  split; [reflexivity|]. split; [reflexivity|].
  split; [exact (NewCTR_aes key iv' Hiv')|]. split; [exact Hwf|].
  unfold io.Copy. cbn [fst]. rewrite copy_chunks_body by exact Hwf.
  rewrite section_reader_bytes, body_snoc_header.
  destruct (negb _); rewrite ?body_snoc_header, body_snoc_WriteHeader; reflexivity.
Qed.


(** The body of an aligned ranged relay, cut out of the body of the full
    relay. *)
Lemma ranged_body_slice
    (data key iv : list byte) (size : Z) (byteRange : string) (start end_ : Z) :
  valid_key key -> length iv = 16%nat -> is_int64 size ->
  single_range_form byteRange start end_ -> start <= end_ -> end_ < size ->
  start mod 16 = 0 -> be_uint (drop 8 iv) + start / 16 < 2 ^ 64 ->
  http.body (http.response_of (fst (StreamFromByteWithRange [] data size key iv byteRange)))
  = take (Z.to_nat (end_ - start + 1))
      (drop (Z.to_nat start)
         (http.body (http.response_of (fst (StreamFromByte [] data size key iv))))).
Proof.
  intros Hk Hiv Hsize Hf Hse Hes Hal Hnc.
  assert (0 <= start < 2 ^ 63) as Hst.
  { destruct Hf as (s & e & _ & Hs & He & Ps & Pe).
    apply (ParseInt_no_dash _ _ Hs Ps). }
  assert (0 <= end_ < 2 ^ 63) as Hen.
  { destruct Hf as (s & e & _ & Hs & He & Ps & Pe).
    apply (ParseInt_no_dash _ _ He Pe). }
  pose proof (parseByteRange_in_bounds byteRange size start end_ Hsize Hf Hse Hes) as Hp.
  destruct (StreamFromByteWithRange_body [] data size key iv byteRange _ _ Hk Hiv Hp)
    as (w1 & iv' & x' & Hr1 & Hadj & Hx' & Hwf' & Hb1).
  destruct (StreamFromByte_body [] data size key iv Hk Hiv)
    as (w0 & x & Hr0 & Hx & Hwf & Hb0).
  rewrite Hr1, Hr0. cbn [fst]. rewrite Hb1, Hb0.
  cbn [http.response_of fold_left http.NewRecorder http.body app].
  destruct (resync_decrypts_aligned_range (aes.cipher_of_key key) iv start
              (io.section data 0 size) (aes.aes_BlockSize key) Hiv Hst Hal Hnc)
    as (iv2 & x2 & x2' & Hadj2 & Hx2 & Hx2' & Heq).
  rewrite Hadj in Hadj2. injection Hadj2 as <-.
  rewrite Hx in Hx2. injection Hx2 as <-.
  rewrite Hx' in Hx2'. injection Hx2' as <-.
  rewrite <- Heq, <- XORKeyStream_take by exact Hwf'. f_equal.
  unfold io.section. change (Z.to_nat 0) with 0%nat. cbn [drop].
  rewrite skipn_firstn_comm, take_take, Nat.min_l by lia. reflexivity.
Qed.

(** X1.  The ranged relay is in step with the full one: for a range that
    starts on a block boundary and does not carry out of the low eight
    bytes of the counter, [StreamFromByteWithRange] delivers exactly the
    bytes [start..end] of what [StreamFromByte] delivers. *)
Theorem ranged_relay_is_slice_of_full_relay
    (data key iv : list byte) (size : Z) (byteRange : string) (start end_ : Z) :
  valid_key key -> length iv = 16%nat -> is_int64 size ->
  single_range_form byteRange start end_ -> start <= end_ -> end_ < size ->
  start mod 16 = 0 -> be_uint (drop 8 iv) + start / 16 < 2 ^ 64 ->
  http.body (http.response_of (fst (StreamFromByteWithRange [] data size key iv byteRange)))
  = take (Z.to_nat (end_ - start + 1))
      (drop (Z.to_nat start)
         (http.body (http.response_of (fst (StreamFromByte [] data size key iv))))).
Proof.
  exact (ranged_body_slice data key iv size byteRange start end_).
Qed.

End EndToEnd.

(** X3.  Only whole blocks count: the resynchroniser returns the same IV
    for an offset and for the start of the block the offset lies in, so
    it never realigns inside a block. *)
Theorem adjustIVForOffset_ignores_remainder iv offset :
  length iv = 16%nat -> 0 <= offset < 2 ^ 63 ->
  adjustIVForOffset iv offset = adjustIVForOffset iv (offset - offset mod 16).
Proof.
  intros Hlen Hoff. pose proof (Z.mod_pos_bound offset 16 ltac:(lia)) as Hm.
  rewrite !adjustIVForOffset_eq by assumption.
  pose proof (Z.mod_le offset 16 ltac:(lia) ltac:(lia)) as Hle.
  rewrite !block_offset_nonneg by lia.
  assert ((offset - offset mod 16) / 16 = offset / 16) as ->
    by (Z.to_euclidean_division_equations; lia).
  reflexivity.
Qed.

(** X2.  At offset zero the resynchroniser returns the IV itself. *)
Theorem resync_identity_at_zero (iv : list byte) :
  length iv = 16%nat -> adjustIVForOffset iv 0 = Return iv.
Proof. apply adjustIVForOffset_zero. Qed.

Lemma resync_identity_at_zero_witness : adjustIVForOffset test_iv 0 = Return test_iv.
Proof. apply (resync_identity_at_zero test_iv). reflexivity. Defined.

Lemma adjustIVForOffset_ignores_remainder_witness :
  adjustIVForOffset test_iv 37 = adjustIVForOffset test_iv (37 - 37 mod 16).
Proof. apply (adjustIVForOffset_ignores_remainder test_iv 37); [reflexivity | lia]. Defined.


Lemma single_range_form_16_25 : single_range_form "bytes=16-25" 16 25.
Proof.
  exists "16"%string, "25"%string. repeat split; vm_compute; reflexivity.
Qed.

Lemma ranged_relay_is_slice_of_full_relay_witness :
  http.body (http.response_of
               (fst (@StreamFromByteWithRange test_aes [] sourceContent 26 examplekey
                       (make 16) "bytes=16-25")))
  = take (Z.to_nat (25 - 16 + 1))
      (drop (Z.to_nat 16)
         (http.body (http.response_of
                       (fst (@StreamFromByte test_aes [] sourceContent 26 examplekey
                               (make 16)))))).
Proof.
  apply (@ranged_relay_is_slice_of_full_relay test_aes sourceContent examplekey (make 16)
           26 "bytes=16-25" 16 25);
    [exact valid_examplekey | reflexivity | unfold is_int64; lia
    | exact single_range_form_16_25 | lia | lia | reflexivity | vm_compute; reflexivity].
Defined.

(** ** More on the range parsers *)

Section ParserExtras.

Local Open Scope string_scope.

(** What [parseRangeOffset] does with a header that has the prefix. *)
Lemma parseRangeOffset_prefix_cases rest :
  (dashes rest <> 1%nat
   /\ parseRangeOffset ("bytes=" ++ rest) = (0, Some (errorString "Invalid range format.")))
  \/ exists s e, rest = s ++ "-" ++ e /\ no_dash s /\ no_dash e
                 /\ parseRangeOffset ("bytes=" ++ rest) = strconv.ParseInt s.
Proof.
  destruct (Nat.eq_dec (dashes rest) 1%nat) as [E|E].
  - right. destruct (Split_dash rest) as (Hj & Hf & Hl). rewrite E in Hl.
    destruct (strings.Split rest "-") as [|s [|e [|z l]]] eqn:Hsp; try discriminate Hl.
    apply Split_dash_two in Hsp as (-> & Hs & He).
    exists s, e. repeat split; auto. now apply parseRangeOffset_two_fields.
  - left. split; [exact E|]. now apply parseRangeOffset_other_fields.
Qed.

(** Every header either lacks the prefix or carries it. *)
Lemma header_prefix_cases header :
  strings.HasPrefix header "bytes=" = false \/ exists rest, header = "bytes=" ++ rest.
Proof.
  destruct (strings.HasPrefix header "bytes=") eqn:Hp; [right|left; reflexivity].
  apply HasPrefix_inv in Hp. eauto.
Qed.

(** X5.  [parseRangeOffset] never returns a negative offset: when it
    returns no error the offset lies in [0, 2^63). *)
Theorem parseRangeOffset_offset_nonneg (header : string) (offset : Z) :
  parseRangeOffset header = (offset, None) -> 0 <= offset < 2 ^ 63.
Proof.
  intros H. destruct (header_prefix_cases header) as [Hp|[rest ->]].
  - rewrite (parseRangeOffset_no_prefix _ Hp) in H. injection H as <-. lia.
  - destruct (parseRangeOffset_prefix_cases rest) as [[_ E]|(s & e & -> & Hs & He & E)];
      rewrite E in H; [discriminate H|].
    now apply (ParseInt_no_dash s).
Qed.

(** X6.  The two parsers agree: where [parseByteRange] succeeds,
    [parseRangeOffset] returns the same offset and no error; and where
    [parseRangeOffset] fails, [parseByteRange] fails as well, whatever
    the size. *)
Theorem parsers_agree (header : string) (size : Z) :
  (forall offset length, parseByteRange header size = (offset, length, None) ->
     parseRangeOffset header = (offset, None))
  /\ (snd (parseRangeOffset header) <> None -> snd (parseByteRange header size) <> None).
Proof.
  split.
  - intros offset length H.
    destruct (String.eqb_spec header "") as [->|Hne].
    + injection H as <- _. reflexivity.
    + destruct (single_range_form_dec header) as [(start & end_ & Hf)|Hnf].
      * pose proof (parseByteRange_single_range _ size _ _ Hf) as Hc.
        rewrite Hc in H. destruct (_ || _); [discriminate H|]. injection H as <- _.
        destruct Hf as (s & e & -> & Hs & He & Ps & _).
        rewrite parseRangeOffset_two_fields; assumption.
      * destruct (parseByteRange_malformed header size Hne Hnf) as (e & He & _).
        rewrite He in H. discriminate H.
  - intros H. destruct (header_prefix_cases header) as [Hp|[rest ->]].
    + rewrite (parseRangeOffset_no_prefix _ Hp) in H. now contradiction H.
    + destruct (single_range_form_dec ("bytes=" ++ rest)) as [(start & end_ & Hf)|Hnf].
      * exfalso. apply H. destruct Hf as (s & e & Heq & Hs & He & Ps & _).
        rewrite Heq, parseRangeOffset_two_fields, Ps; auto.
      * destruct (parseByteRange_malformed ("bytes=" ++ rest) size) as (e & He & _);
          [discriminate | exact Hnf |]. rewrite He. discriminate.
Qed.

(** X7.  A range [parseByteRange] accepts lies inside the resource: for a
    non-empty header the offset is not negative, the length is at least
    one and [offset + length <= size]. *)
Theorem parseByteRange_within_resource (header : string) (size offset length : Z) :
  is_int64 size -> header <> "" ->
  parseByteRange header size = (offset, length, None) ->
  0 <= offset /\ 1 <= length /\ offset + length <= size.
Proof.
  intros Hsize Hne H.
  destruct (single_range_form_dec header) as [(start & end_ & Hf)|Hnf].
  - pose proof (parseByteRange_single_range _ size _ _ Hf) as Hc.
    destruct (Z.gtb_spec start end_); cbn [orb] in Hc; [rewrite Hc in H; discriminate H|].
    destruct (Z.geb_spec end_ size); [rewrite Hc in H; discriminate H|].
    rewrite (parseByteRange_in_bounds header size start end_ Hsize Hf) in H by lia.
    injection H as <- <-.
    destruct Hf as (s & e & _ & Hs & _ & Ps & _).
    pose proof (ParseInt_no_dash _ _ Hs Ps). lia.
  - destruct (parseByteRange_malformed header size Hne Hnf) as (e & He & _).
    rewrite He in H. discriminate H.
Qed.

(** X8.  Each way a header can be malformed has its own error: no
    prefix, not exactly one dash after the prefix, a first field and
    then a second field that [strconv.ParseInt] rejects.  So a suffix
    range [bytes=-N], an open range [bytes=N-] and a list of ranges are
    all rejected. *)
Theorem parseByteRange_error_causes (header : string) (size : Z) :
  (header <> "" -> strings.HasPrefix header "bytes=" = false ->
     parseByteRange header size = (0, 0, Some (errorString "invalid range header")))
  /\ (forall rest, header = "bytes=" ++ rest -> dashes rest <> 1%nat ->
        parseByteRange header size = (0, 0, Some (errorString "invalid range format")))
  /\ (forall s e, header = "bytes=" ++ s ++ "-" ++ e -> no_dash s -> no_dash e ->
        snd (strconv.ParseInt s) <> None ->
        parseByteRange header size = (0, 0, Some (errorString "invalid start byte")))
  /\ (forall s e, header = "bytes=" ++ s ++ "-" ++ e -> no_dash s -> no_dash e ->
        snd (strconv.ParseInt s) = None -> snd (strconv.ParseInt e) <> None ->
        parseByteRange header size = (0, 0, Some (errorString "invalid end byte")))
  /\ (forall s, header = "bytes=" ++ s ++ "-" -> no_dash s ->
        snd (parseByteRange header size) <> None)
  /\ (forall e, header = "bytes=-" ++ e -> no_dash e ->
        parseByteRange header size = (0, 0, Some (errorString "invalid start byte"))).
Proof.
  assert (Hfields : forall s e, no_dash s -> no_dash e ->
            parseByteRange ("bytes=" ++ s ++ "-" ++ e) size
            = let '(start, err) := strconv.ParseInt s in
              if err is Some _ then (0, 0, Some (errorString "invalid start byte"))
              else let '(end_, err) := strconv.ParseInt e in
                   if err is Some _ then (0, 0, Some (errorString "invalid end byte"))
                   else if (start >? end_) || (end_ >=? size)
                        then (0, 0, Some (errorString "range out of bounds"))
                        else (start, int64 (int64 (end_ - start) + 1), None)).
  { intros s e Hs He. unfold parseByteRange.
    rewrite nonempty_bytes_prefix, HasPrefix_app, TrimPrefix_app. cbn [negb].
    assert (strings.Split (s ++ "-" ++ e) "-" = [s; e]) as -> by (apply Split_dash_two; auto).
    reflexivity. }
  split; [|split; [|split; [|split; [|split]]]].
  - intros Hne Hp. unfold parseByteRange.
    destruct (String.eqb_spec header "") as [|_]; [contradiction|]. now rewrite Hp.
  - intros rest -> Hd. unfold parseByteRange.
    rewrite nonempty_bytes_prefix, HasPrefix_app, TrimPrefix_app. cbn [negb].
    destruct (Split_dash rest) as (_ & _ & Hl). rewrite Hl.
    destruct (Nat.eqb_spec (S (dashes rest)) 2); [lia|reflexivity].
  - intros s e -> Hs He Hp. rewrite Hfields by assumption.
    destruct (strconv.ParseInt s) as [start [err|]]; [reflexivity|]. now contradiction Hp.
  - intros s e -> Hs He Hp1 Hp2. rewrite Hfields by assumption.
    destruct (strconv.ParseInt s) as [start [err|]]; [discriminate Hp1|].
    destruct (strconv.ParseInt e) as [end_ [err|]]; [reflexivity|]. now contradiction Hp2.
  - intros s -> Hs. change ("bytes=" ++ s ++ "-") with ("bytes=" ++ s ++ "-" ++ "").
    rewrite (Hfields s "") by (auto; reflexivity).
    destruct (strconv.ParseInt s) as [start [err|]]; [discriminate|].
    cbn. discriminate.
  - intros e -> He. apply (Hfields "" e); [reflexivity | exact He].
Qed.

End ParserExtras.

(** ** The algebra of the resynchroniser *)

Lemma adjustIVForOffset_parts iv offset :
  length iv = 16%nat -> 0 <= offset < 2 ^ 63 ->
  exists iv',
    adjustIVForOffset iv offset = Return iv'
    /\ length iv' = 16%nat
    /\ take 8 iv' = take 8 iv
    /\ be_uint (drop 8 iv') = (be_uint (drop 8 iv) + offset / 16) mod 2 ^ 64.
Proof.
  intros Hlen Hoff. eexists. split; [apply adjustIVForOffset_eq; assumption|].
  rewrite block_offset_nonneg by assumption.
  assert (length (take 8 iv) = 8%nat) as Ht by (rewrite length_take; lia).
  split; [rewrite length_app, Ht; reflexivity|]. split.
  - rewrite take_app_length' by (symmetry; exact Ht). reflexivity.
  - rewrite drop_app_length' by (symmetry; exact Ht).
    rewrite be_uint_bytes_of_uint64. unfold uint64. apply Z.mod_mod. lia.
Qed.

(** Two 16-byte IVs with the same first half and the same counter are
    the same IV. *)
Lemma iv_eq_by_parts (iv1 iv2 : list byte) :
  length iv1 = 16%nat -> length iv2 = 16%nat ->
  take 8 iv1 = take 8 iv2 -> be_uint (drop 8 iv1) = be_uint (drop 8 iv2) ->
  iv1 = iv2.
Proof.
  intros H1 H2 Ht Hd. rewrite <- (take_drop 8 iv1), <- (take_drop 8 iv2), Ht. f_equal.
  apply be_uint_inj; [rewrite !length_drop; lia | exact Hd].
Qed.

(** X9.  Resynchronising twice is resynchronising once by the sum, when
    the first offset ends on a block boundary; this holds across the
    wrap of the counter. *)
Theorem adjustIVForOffset_compose (iv : list byte) (a b : Z) :
  length iv = 16%nat -> 0 <= a -> 0 <= b -> a + b < 2 ^ 63 -> a mod 16 = 0 ->
  exists iv',
    adjustIVForOffset iv a = Return iv'
    /\ adjustIVForOffset iv' b = adjustIVForOffset iv (a + b).
Proof.
  intros Hlen Ha Hb Hab Hal.
  destruct (adjustIVForOffset_parts iv a Hlen ltac:(lia)) as (iv1 & E1 & L1 & T1 & D1).
  destruct (adjustIVForOffset_parts iv1 b L1 ltac:(lia)) as (iv2 & E2 & L2 & T2 & D2).
  destruct (adjustIVForOffset_parts iv (a + b) Hlen ltac:(lia)) as (iv3 & E3 & L3 & T3 & D3).
  exists iv1. split; [exact E1|]. rewrite E2, E3. f_equal.
  apply iv_eq_by_parts; [assumption | assumption | congruence |].
  rewrite D2, D1, D3, Zplus_mod_idemp_l. f_equal.
  assert ((a + b) / 16 = a / 16 + b / 16) as -> by (Z.to_euclidean_division_equations; lia).
  lia.
Qed.

(** X10.  Two offsets give the same IV exactly when they lie in the same
    16-byte block: no two blocks of a resource share a counter. *)
Theorem adjustIVForOffset_same_iff_same_block (iv : list byte) (a b : Z) :
  length iv = 16%nat -> 0 <= a < 2 ^ 63 -> 0 <= b < 2 ^ 63 ->
  adjustIVForOffset iv a = adjustIVForOffset iv b <-> a / 16 = b / 16.
Proof.
  intros Hlen Ha Hb.
  destruct (adjustIVForOffset_parts iv a Hlen Ha) as (iv1 & E1 & L1 & T1 & D1).
  destruct (adjustIVForOffset_parts iv b Hlen Hb) as (iv2 & E2 & L2 & T2 & D2).
  rewrite E1, E2. split.
  - intros [= <-]. rewrite D1 in D2.
    pose proof (be_uint_range (drop 8 iv)) as Hr. rewrite length_drop, Hlen in Hr.
    change (256 ^ Z.of_nat (16 - 8)) with (2 ^ 64) in Hr.
    assert (0 <= a / 16 < 2 ^ 59) by (Z.to_euclidean_division_equations; lia).
    assert (0 <= b / 16 < 2 ^ 59) by (Z.to_euclidean_division_equations; lia).
    revert D2. generalize (be_uint (drop 8 iv)) (a / 16) (b / 16) Hr H H0.
    clear. intros lo ka kb Hlo Hka Hkb D.
    Z.to_euclidean_division_equations. lia.
  - intros E. f_equal. apply iv_eq_by_parts; [assumption | assumption | congruence |].
    now rewrite D1, D2, E.
Qed.

(** ** More on the relays *)

Section RelayExtras.

Context `{AES : aes.AES} `{Client : http.Client}.

Lemma NewCipher_invalid key :
  ~ valid_key key -> aes.NewCipher key = inr (KeySizeError (length key)).
Proof.
  unfold valid_key, aes.NewCipher. intros Hk.
  destruct (Nat.eqb_spec (length key) 16); [tauto|].
  destruct (Nat.eqb_spec (length key) 24); [tauto|].
  destruct (Nat.eqb_spec (length key) 32); [tauto|]. reflexivity.
Qed.


(** The total size [StreamFromUrlWithRange] reads off the upstream
    response: from [Content-Range] when that header is there (0 when it
    does not scan), else from [Content-Length], else 0. *)
Lemma StreamFromUrlWithRange_run w fileUrl key iv byteRange resp offset :
  valid_key key -> length iv = 16%nat ->
  http.NewRequest_err fileUrl = None ->
  http.Do (range_request fileUrl byteRange) = inl resp ->
  parseRangeOffset byteRange = (offset, None) ->
  exists iv' stream totalSize ws,
    adjustIVForOffset iv offset = Return iv'
    /\ cipher.NewCTR (aes.cipher_of_key key) iv' = Return stream
    /\ ctr_wf stream
    /\ Forall is_Write ws
    /\ StreamFromUrlWithRange w fileUrl key iv byteRange
       = (w ++ (if negb (String.eqb byteRange "")
                   && (http.StatusCode resp =? http.StatusPartialContent)
                then [http.SetHeader "Content-Range"
                        ("bytes " ++ itoa offset ++ "-"
                           ++ itoa (int64 (int64 (offset + http.ContentLength resp) - 1))
                           ++ "/" ++ itoa totalSize);
                      http.SetHeader "Content-Length" (itoa (http.ContentLength resp));
                      http.SetHeader "Accept-Ranges" "bytes";
                      http.SetHeader "Content-Type" "application/pdf";
                      http.WriteHeader http.StatusPartialContent]
                else [http.SetHeader "Content-Length" (itoa totalSize);
                      http.SetHeader "Accept-Ranges" "bytes";
                      http.SetHeader "Content-Type" "application/pdf";
                      http.WriteHeader http.StatusOK]) ++ ws,
          Return (http.read_err (http.Body resp)))
    /\ http.body (http.response_of (fst (StreamFromUrlWithRange w fileUrl key iv byteRange)))
       = http.body (http.response_of w)
         ++ snd (cipher.XORKeyStream stream (concat (http.chunks (http.Body resp))))
    /\ (forall s0 e0 t,
          http.Header_Get (http.RespHeader resp) "Content-Range" <> ""%string ->
          http.Sscanf_content_range (http.Header_Get (http.RespHeader resp) "Content-Range")
            = Some (s0, e0, t) -> totalSize = t)
    /\ (http.Header_Get (http.RespHeader resp) "Content-Range" = ""%string ->
        http.Header_Get (http.RespHeader resp) "Content-Length" <> ""%string ->
        totalSize
        = fst (strconv.ParseInt (http.Header_Get (http.RespHeader resp) "Content-Length"))).
Proof.
  intros Hk Hiv Hreq Hdo Hp.
  destruct (adjustIVForOffset_length iv offset Hiv) as (iv' & Hadj & Hiv').
  pose proof (aes_stream_wf key iv' Hiv') as Hwf.
  unfold StreamFromUrlWithRange, http.NewRequest. rewrite Hreq.
  match goal with
  | |- context [http.Do ?r] =>
      replace r with (range_request fileUrl byteRange)
        by (unfold range_request; destruct (String.eqb byteRange ""); reflexivity)
  end.
  rewrite Hdo, Hp, Hadj, (NewCipher_valid key Hk), (NewCTR_aes key iv' Hiv').
  set (stream := {| cipher.b := aes.cipher_of_key key; cipher.ctr_ := iv';
                    cipher.out := [] |}) in *.
  set (total :=
         if negb (String.eqb (http.Header_Get (http.RespHeader resp) "Content-Range") "")
         then _ else _).
  exists iv', stream, total.
  unfold io.Copy.
  match goal with
  | |- context [io.copy_chunks ?w0 _ _] => 
      destruct (copy_chunks_writes w0 stream (http.chunks (http.Body resp)))
        as (ws & Hws & Hall);
      pose proof (copy_chunks_body w0 stream (http.chunks (http.Body resp)) Hwf) as Hbody
  end.
  exists ws.
  split; [reflexivity|]. split; [exact (NewCTR_aes key iv' Hiv')|].
  split; [exact Hwf|]. split; [exact Hall|].
  cbn [fst] in *. rewrite Hbody, Hws. split; [|split; [|split]].
  - destruct (_ && _); rewrite <- !app_assoc; reflexivity.
  - f_equal. destruct (_ && _);
      rewrite ?body_snoc_WriteHeader, ?body_snoc_header; reflexivity.
  - intros s0 e0 t Hne Hs. unfold total.
    destruct (String.eqb_spec (http.Header_Get (http.RespHeader resp) "Content-Range") "");
      [contradiction|]. cbn [negb]. now rewrite Hs.
  - intros He Hne. unfold total. rewrite He. cbn [String.eqb negb].
    destruct (String.eqb_spec (http.Header_Get (http.RespHeader resp) "Content-Length") "");
      [contradiction|]. reflexivity.
Qed.

Lemma StreamFromUrl_run w fileUrl key iv resp :
  valid_key key -> length iv = 16%nat ->
  http.NewRequest_err fileUrl = None ->
  http.Do (range_request fileUrl "") = inl resp ->
  exists stream,
    cipher.NewCTR (aes.cipher_of_key key) iv = Return stream
    /\ ctr_wf stream
    /\ snd (StreamFromUrl w fileUrl key iv) = Return (http.read_err (http.Body resp))
    /\ http.body (http.response_of (fst (StreamFromUrl w fileUrl key iv)))
       = http.body (http.response_of w)
         ++ snd (cipher.XORKeyStream stream (concat (http.chunks (http.Body resp)))).
Proof.
  intros Hk Hiv Hreq Hdo. pose proof (aes_stream_wf key iv Hiv) as Hwf.
  unfold StreamFromUrl, http.NewRequest. rewrite Hreq.
  change {| http.Method := "GET"; http.URL := fileUrl; http.ReqHeader := ∅ |}
    with (range_request fileUrl "").
  rewrite Hdo, (NewCipher_valid key Hk), (NewCTR_aes key iv Hiv).
  eexists. split; [reflexivity|]. split; [exact Hwf|].
  unfold io.Copy. cbn [fst snd]. split; [reflexivity|].
  rewrite copy_chunks_body by exact Hwf.
  now rewrite body_snoc_header, body_snoc_WriteHeader.
Qed.

(** X11.  Without a range the ranged local relay is the plain one: for a
    16-byte IV, [StreamFromByteWithRange] with an empty header makes the
    same calls on the sink and returns the same result as
    [StreamFromByte], whatever the key. *)
Theorem StreamFromByteWithRange_empty_range
    (w : http.ResponseWriter) (data key iv : list byte) (size : Z) :
  length iv = 16%nat ->
  StreamFromByteWithRange w data size key iv "" = StreamFromByte w data size key iv.
Proof.
  intros Hiv. unfold StreamFromByteWithRange, StreamFromByte.
  change (parseByteRange "" size) with (0, size, @None error).
  cbn iota beta. rewrite (adjustIVForOffset_zero iv Hiv). reflexivity.
Qed.



(** X14.  The round trip of [TestStreamFromUrl]: with a valid key, a
    16-byte IV and a successful fetch, [StreamFromUrl] returns the error
    that ended the upstream body (nil at end of file), and decrypting
    what it delivered with the same key and IV gives the upstream bytes
    read until then, however the reads were cut. *)
Theorem StreamFromUrl_round_trip
    (fileUrl : string) (key iv : list byte) (resp : http.Response) :
  valid_key key -> length iv = 16%nat ->
  http.NewRequest_err fileUrl = None ->
  http.Do (range_request fileUrl "") = inl resp ->
  exists stream,
    cipher.NewCTR (aes.cipher_of_key key) iv = Return stream
    /\ snd (StreamFromUrl [] fileUrl key iv) = Return (http.read_err (http.Body resp))
    /\ snd (cipher.XORKeyStream stream
              (http.body (http.response_of (fst (StreamFromUrl [] fileUrl key iv)))))
       = concat (http.chunks (http.Body resp)).
Proof.
  intros Hk Hiv Hreq Hdo.
  destruct (StreamFromUrl_run [] fileUrl key iv resp Hk Hiv Hreq Hdo)
    as (stream & Hs & Hwf & Hr & Hb).
  exists stream. split; [exact Hs|]. split; [exact Hr|].
  rewrite Hb. cbn [http.response_of fold_left http.NewRecorder http.body app].
  now apply XORKeyStream_involutive.
Qed.

(** X15.  The round trip of [TestStreamFromUrlWithRange]: whatever status
    the upstream answers with, [StreamFromUrlWithRange] xors the upstream
    body with the key stream of [adjustIVForOffset iv offset], where
    [offset] is the start parsed from the request header; decrypting the
    delivered bytes with that stream gives the upstream bytes back. *)
Theorem StreamFromUrlWithRange_round_trip
    (fileUrl : string) (key iv : list byte) (byteRange : string)
    (resp : http.Response) (offset : Z) :
  valid_key key -> length iv = 16%nat ->
  http.NewRequest_err fileUrl = None ->
  http.Do (range_request fileUrl byteRange) = inl resp ->
  parseRangeOffset byteRange = (offset, None) ->
  exists iv' stream,
    adjustIVForOffset iv offset = Return iv'
    /\ cipher.NewCTR (aes.cipher_of_key key) iv' = Return stream
    /\ snd (StreamFromUrlWithRange [] fileUrl key iv byteRange)
       = Return (http.read_err (http.Body resp))
    /\ snd (cipher.XORKeyStream stream
              (http.body (http.response_of
                            (fst (StreamFromUrlWithRange [] fileUrl key iv byteRange)))))
       = concat (http.chunks (http.Body resp)).
Proof.
  intros Hk Hiv Hreq Hdo Hp.
  destruct (StreamFromUrlWithRange_run [] fileUrl key iv byteRange resp offset
              Hk Hiv Hreq Hdo Hp)
    as (iv' & stream & total & ws & Hadj & Hs & Hwf & _ & Hr & Hb & _).
  exists iv', stream. split; [exact Hadj|]. split; [exact Hs|].
  split; [now rewrite Hr|].
  rewrite Hb. cbn [http.response_of fold_left http.NewRecorder http.body app].
  now apply XORKeyStream_involutive.
Qed.

End RelayExtras.

(** ** What the client receives from the ranged remote relay *)

Lemma Header_Get_Set_eq h k v : http.Header_Get (http.Header_Set h k v) k = v.
Proof. unfold http.Header_Get, http.Header_Set, http.Header. now rewrite lookup_insert_eq. Qed.

Lemma Header_Get_Set_ne h k k' v :
  k <> k' -> http.Header_Get (http.Header_Set h k v) k' = http.Header_Get h k'.
Proof.
  intros Hk. unfold http.Header_Get, http.Header_Set, http.Header.
  now rewrite lookup_insert_ne.
Qed.


Lemma response_of_app w ws :
  http.response_of (w ++ ws) = fold_left http.apply_call ws (http.response_of w).
Proof. unfold http.response_of. apply fold_left_app. Qed.

Section RelayReplies.

Context `{AES : aes.AES} `{Client : http.Client}.

Local Open Scope string_scope.

(** X16.  A partial reply of [StreamFromUrlWithRange]: when a range was
    asked for and the upstream answers 206, the client receives status
    206 with a [Content-Range] whose start is the one parsed from the
    request, whose end is that start plus the upstream content length
    minus one and whose total is the one scanned from the upstream
    [Content-Range]; [Content-Length] is the upstream content length. *)
Theorem StreamFromUrlWithRange_partial_reply
    (fileUrl : string) (key iv : list byte) (byteRange : string)
    (resp : http.Response) (offset s0 e0 total : Z) :
  valid_key key -> length iv = 16%nat ->
  http.NewRequest_err fileUrl = None ->
  byteRange <> "" ->
  http.Do (range_request fileUrl byteRange) = inl resp ->
  http.StatusCode resp = http.StatusPartialContent ->
  parseRangeOffset byteRange = (offset, None) ->
  http.Header_Get (http.RespHeader resp) "Content-Range" <> "" ->
  http.Sscanf_content_range (http.Header_Get (http.RespHeader resp) "Content-Range")
    = Some (s0, e0, total) ->
  exists h,
    http.committed (http.response_of (fst (StreamFromUrlWithRange [] fileUrl key iv byteRange)))
      = Some (http.StatusPartialContent, h)
    /\ http.Header_Get h "Content-Range"
       = "bytes " ++ itoa offset ++ "-"
           ++ itoa (int64 (int64 (offset + http.ContentLength resp) - 1))
           ++ "/" ++ itoa total
    /\ http.Header_Get h "Content-Length" = itoa (http.ContentLength resp)
    /\ http.Header_Get h "Accept-Ranges" = "bytes"
    /\ http.Header_Get h "Content-Type" = "application/pdf".
Proof.
  intros Hk Hiv Hreq Hne Hdo Hst Hp Hcr Hscan.
  destruct (StreamFromUrlWithRange_run [] fileUrl key iv byteRange resp offset
              Hk Hiv Hreq Hdo Hp)
    as (iv' & stream & t & ws & _ & _ & _ & _ & Hr & _ & Ht & _).
  rewrite (Ht _ _ _ Hcr Hscan) in Hr. rewrite Hr. cbn [fst].
  apply String.eqb_neq in Hne. rewrite Hne, Hst. cbn [negb andb Z.eqb http.StatusPartialContent Pos.eqb].
  unfold http.response_of. cbn [app fold_left].
  eexists. split.
  - apply committed_stable. reflexivity.
  - cbn [http.header_map http.apply_call http.NewRecorder].
    repeat split;
      repeat first [ apply Header_Get_Set_eq
                   | rewrite Header_Get_Set_ne by discriminate ].
Qed.



End RelayReplies.

(** ** Failures, lengths and reassembly *)

Lemma section_length data off n :
  0 <= off -> 0 <= n -> off + n <= Z.of_nat (length data) ->
  Z.of_nat (length (io.section data off n)) = n.
Proof.
  intros Hoff Hn Hle. unfold io.section. rewrite length_take, length_drop. lia.
Qed.

Section RelayFailures.

Context `{AES : aes.AES} `{Client : http.Client}.

Local Open Scope string_scope.

(** X19.  A key that is not 16, 24 or 32 bytes long is reported as
    [aes.KeySizeError] with nothing written to the sink: by the plain
    relays whatever the IV, by the ranged relays once the range is parsed
    and the 16-byte IV resynchronised; the remote relays have fetched the
    upstream response by then. *)
Theorem relays_reject_bad_key
    (w : http.ResponseWriter) (data key iv : list byte) (size : Z)
    (fileUrl byteRange : string) :
  ~ valid_key key ->
  StreamFromByte w data size key iv = (w, Return (Some (KeySizeError (length key))))
  /\ (forall resp,
        http.NewRequest_err fileUrl = None ->
        http.Do (range_request fileUrl "") = inl resp ->
        StreamFromUrl w fileUrl key iv = (w, Return (Some (KeySizeError (length key)))))
  /\ (forall offset length_,
        length iv = 16%nat ->
        parseByteRange byteRange size = (offset, length_, None) ->
        StreamFromByteWithRange w data size key iv byteRange
        = (w, Return (Some (KeySizeError (length key)))))
  /\ (forall resp offset,
        length iv = 16%nat ->
        http.NewRequest_err fileUrl = None ->
        http.Do (range_request fileUrl byteRange) = inl resp ->
        parseRangeOffset byteRange = (offset, None) ->
        StreamFromUrlWithRange w fileUrl key iv byteRange
        = (w, Return (Some (KeySizeError (length key))))).
Proof.
  intros Hk. pose proof (NewCipher_invalid key Hk) as Hc. repeat split.
  - unfold StreamFromByte. now rewrite Hc.
  - intros resp Hreq Hdo. unfold StreamFromUrl, http.NewRequest. rewrite Hreq.
    change {| http.Method := "GET"; http.URL := fileUrl; http.ReqHeader := ∅ |}
      with (range_request fileUrl "").
    now rewrite Hdo, Hc.
  - intros offset length_ Hiv Hp. unfold StreamFromByteWithRange. rewrite Hp.
    destruct (adjustIVForOffset_length iv offset Hiv) as (iv' & -> & _).
    now rewrite Hc.
  - intros resp offset Hiv Hreq Hdo Hp.
    unfold StreamFromUrlWithRange, http.NewRequest. rewrite Hreq.
    match goal with
    | |- context [http.Do ?r] =>
        replace r with (range_request fileUrl byteRange)
          by (unfold range_request; destruct (String.eqb byteRange ""); reflexivity)
    end.
    rewrite Hdo, Hp.
    destruct (adjustIVForOffset_length iv offset Hiv) as (iv' & -> & _).
    now rewrite Hc.
Qed.


(** X21.  A ranged local relay delivers as many bytes as the range asks
    for: when the declared size does not exceed the data, the body
    [StreamFromByteWithRange] writes for an accepted range header has
    exactly the length the parser returned, which is end - start + 1. *)
Theorem StreamFromByteWithRange_body_length
    (data key iv : list byte) (size : Z) (byteRange : string) (offset length_ : Z) :
  valid_key key -> length iv = 16%nat ->
  is_int64 size -> size <= Z.of_nat (length data) ->
  byteRange <> "" ->
  parseByteRange byteRange size = (offset, length_, None) ->
  Z.of_nat (length (http.body (http.response_of
              (fst (StreamFromByteWithRange [] data size key iv byteRange)))))
  = length_.
Proof.
  intros Hk Hiv Hsize Hdata Hne Hp.
  destruct (parseByteRange_within_resource byteRange size offset length_ Hsize Hne Hp)
    as (Ho & Hl & Hol).
  destruct (StreamFromByteWithRange_body [] data size key iv byteRange _ _ Hk Hiv Hp)
    as (w' & iv' & stream & -> & _ & _ & Hwf & Hb).
  cbn [fst]. rewrite Hb.
  cbn [http.response_of fold_left http.NewRecorder http.body app].
  rewrite (XORKeyStream_length _ _ Hwf). apply section_length; lia.
Qed.

(** X22.  Consecutive ranges reassemble: when two accepted ranges
    [a..b] and [b+1..c] both start on a block boundary and the counter
    does not carry, the bodies [StreamFromByteWithRange] delivers for
    them, put end to end, are the body it delivers for [a..c]. *)
Theorem aligned_ranges_reassemble
    (data key iv : list byte) (size : Z) (r1 r2 r : string) (a b c : Z) :
  valid_key key -> length iv = 16%nat -> is_int64 size ->
  single_range_form r1 a b -> single_range_form r2 (b + 1) c ->
  single_range_form r a c ->
  a <= b -> b < c -> c < size ->
  a mod 16 = 0 -> (b + 1) mod 16 = 0 ->
  be_uint (drop 8 iv) + (b + 1) / 16 < 2 ^ 64 ->
  (http.body (http.response_of (fst (StreamFromByteWithRange [] data size key iv r1)))
   ++ http.body (http.response_of (fst (StreamFromByteWithRange [] data size key iv r2))))%list
  = http.body (http.response_of (fst (StreamFromByteWithRange [] data size key iv r))).
Proof.
  intros Hk Hiv Hsize H1 H2 H3 Hab Hbc Hc Ha Hb Hnc.
  assert (0 <= a) as Ha0.
  { destruct H1 as (s & e & _ & Hs & _ & Ps & _).
    apply (ParseInt_no_dash _ _ Hs Ps). }
  assert (a / 16 <= (b + 1) / 16) as Hdiv by (apply Z.div_le_mono; lia).
  rewrite (ranged_body_slice data key iv size r1 a b) by (assumption || lia).
  rewrite (ranged_body_slice data key iv size r2 (b + 1) c) by (assumption || lia).
  rewrite (ranged_body_slice data key iv size r a c) by (assumption || lia).
  set (full := http.body _).
  replace (Z.to_nat (b + 1)) with (Z.to_nat a + Z.to_nat (b - a + 1))%nat by lia.
  rewrite <- drop_drop, take_take_drop. f_equal. lia.
Qed.

End RelayFailures.

Section RemoteErrors.

Context `{AES : aes.AES} `{Client : http.Client}.

Local Open Scope string_scope.

(** X23.  Where the error of a remote relay comes from: when
    [StreamFromUrl] or [StreamFromUrlWithRange] returns an error, either
    the sink has received no call, or the upstream was fetched and the
    error is the one that ended the reading of its body.  No error of the
    request, the range, the key or the cipher follows a write. *)
Theorem remote_relay_error_origin
    (w : http.ResponseWriter) (fileUrl : string) (key iv : list byte)
    (byteRange : string) (err : error) :
  (snd (StreamFromUrl w fileUrl key iv) = Return (Some err) ->
   fst (StreamFromUrl w fileUrl key iv) = w
   \/ exists resp, http.Do (range_request fileUrl "") = inl resp
                   /\ http.read_err (http.Body resp) = Some err)
  /\ (snd (StreamFromUrlWithRange w fileUrl key iv byteRange) = Return (Some err) ->
      fst (StreamFromUrlWithRange w fileUrl key iv byteRange) = w
      \/ exists resp, http.Do (range_request fileUrl byteRange) = inl resp
                      /\ http.read_err (http.Body resp) = Some err).
Proof.
  split.
  - unfold StreamFromUrl, http.NewRequest.
    destruct (http.NewRequest_err fileUrl); [auto|].
    change {| http.Method := "GET"; http.URL := fileUrl; http.ReqHeader := ∅ |}
      with (range_request fileUrl "").
    destruct (http.Do (range_request fileUrl "")) as [resp|e]; [|auto].
    destruct (aes.NewCipher key); [|auto].
    destruct (cipher.NewCTR _ iv); [|auto].
    unfold io.Copy. cbn [fst snd]. intros [= H]. right. eauto.
  - unfold StreamFromUrlWithRange, http.NewRequest.
    destruct (http.NewRequest_err fileUrl); [auto|].
    match goal with
    | |- context [http.Do ?r] =>
        replace r with (range_request fileUrl byteRange)
          by (unfold range_request; destruct (String.eqb byteRange ""); reflexivity)
    end.
    destruct (http.Do (range_request fileUrl byteRange)) as [resp|e]; [|auto].
    destruct (parseRangeOffset byteRange) as [offset [e|]]; [auto|].
    destruct (adjustIVForOffset iv offset); [|auto].
    destruct (aes.NewCipher key); [|auto].
    destruct (cipher.NewCTR _ _); [|auto].
    unfold io.Copy. cbn [fst snd]. intros [= H]. right. eauto.
Qed.

End RemoteErrors.

(** ** The further properties on the test inputs *)

Lemma mockServer_partial :
  @http.Do mockServer (range_request "http://mock" "bytes=6-25") = inl partialReply.
Proof. vm_compute. reflexivity. Qed.

Lemma mockServer_full :
  @http.Do mockServer (range_request "http://mock" "") = inl fullReply.
Proof. vm_compute. reflexivity. Qed.

Lemma not_valid_key_nil : ~ valid_key [].
Proof. unfold valid_key. cbn. lia. Qed.

Lemma single_range_form_0_15 : single_range_form "bytes=0-15" 0 15.
Proof. exists "0"%string, "15"%string. repeat split; vm_compute; reflexivity. Qed.

Lemma single_range_form_0_25 : single_range_form "bytes=0-25" 0 25.
Proof. exists "0"%string, "25"%string. repeat split; vm_compute; reflexivity. Qed.

Lemma parseRangeOffset_offset_nonneg_witness : 0 <= 1024 < 2 ^ 63.
Proof.
  apply (parseRangeOffset_offset_nonneg "bytes=1024-2048" 1024). vm_compute. reflexivity.
Defined.

Lemma parseByteRange_within_resource_witness : 0 <= 5 /\ 1 <= 16 /\ 5 + 16 <= 26.
Proof.
  apply (parseByteRange_within_resource "bytes=5-20" 26 5 16);
    [unfold is_int64; lia | discriminate | vm_compute; reflexivity].
Defined.

Lemma adjustIVForOffset_compose_witness :
  exists iv',
    adjustIVForOffset test_iv 16 = Return iv'
    /\ adjustIVForOffset iv' 40 = adjustIVForOffset test_iv (16 + 40).
Proof.
  apply (adjustIVForOffset_compose test_iv 16 40); [reflexivity | lia | lia | lia | reflexivity].
Defined.

Lemma adjustIVForOffset_same_iff_same_block_witness :
  adjustIVForOffset test_iv 16 = adjustIVForOffset test_iv 31 <-> 16 / 16 = 31 / 16.
Proof.
  apply (adjustIVForOffset_same_iff_same_block test_iv 16 31); [reflexivity | lia | lia].
Defined.

Lemma StreamFromByteWithRange_empty_range_witness :
  @StreamFromByteWithRange test_aes [] sourceContent 26 examplekey test_iv ""
  = @StreamFromByte test_aes [] sourceContent 26 examplekey test_iv.
Proof.
  apply (@StreamFromByteWithRange_empty_range test_aes [] sourceContent examplekey test_iv 26).
  reflexivity.
Defined.



Lemma StreamFromUrl_round_trip_witness :
  exists stream,
    cipher.NewCTR (@aes.cipher_of_key test_aes examplekey) (make 16) = Return stream
    /\ snd (@StreamFromUrl test_aes mockServer [] "http://mock" examplekey (make 16))
       = Return (http.read_err (http.Body fullReply))
    /\ snd (cipher.XORKeyStream stream
              (http.body (http.response_of
                 (fst (@StreamFromUrl test_aes mockServer [] "http://mock" examplekey
                         (make 16))))))
       = concat (http.chunks (http.Body fullReply)).
Proof.
  apply (@StreamFromUrl_round_trip test_aes mockServer "http://mock" examplekey (make 16)
           fullReply);
    [exact valid_examplekey | reflexivity | reflexivity | exact mockServer_full].
Defined.

Lemma StreamFromUrlWithRange_round_trip_witness :
  exists iv' stream,
    adjustIVForOffset (make 16) 6 = Return iv'
    /\ cipher.NewCTR (@aes.cipher_of_key test_aes examplekey) iv' = Return stream
    /\ snd (@StreamFromUrlWithRange test_aes mockServer [] "http://mock" examplekey
              (make 16) "bytes=6-25")
       = Return (http.read_err (http.Body partialReply))
    /\ snd (cipher.XORKeyStream stream
              (http.body (http.response_of
                 (fst (@StreamFromUrlWithRange test_aes mockServer [] "http://mock"
                         examplekey (make 16) "bytes=6-25")))))
       = concat (http.chunks (http.Body partialReply)).
Proof.
  apply (@StreamFromUrlWithRange_round_trip test_aes mockServer "http://mock" examplekey
           (make 16) "bytes=6-25" partialReply 6);
    [exact valid_examplekey | reflexivity | reflexivity | exact mockServer_partial
    | vm_compute; reflexivity].
Defined.

Lemma StreamFromUrlWithRange_partial_reply_witness :
  exists h,
    http.committed (http.response_of
      (fst (@StreamFromUrlWithRange test_aes mockServer [] "http://mock" examplekey
              (make 16) "bytes=6-25")))
      = Some (http.StatusPartialContent, h)
    /\ http.Header_Get h "Content-Range"
       = ("bytes " ++ itoa 6 ++ "-"
            ++ itoa (int64 (int64 (6 + http.ContentLength partialReply) - 1))
            ++ "/" ++ itoa 26)%string
    /\ http.Header_Get h "Content-Length" = itoa (http.ContentLength partialReply)
    /\ http.Header_Get h "Accept-Ranges" = "bytes"%string
    /\ http.Header_Get h "Content-Type" = "application/pdf"%string.
Proof.
  apply (@StreamFromUrlWithRange_partial_reply test_aes mockServer "http://mock" examplekey
           (make 16) "bytes=6-25" partialReply 6 6 25 26);
    [exact valid_examplekey | reflexivity | reflexivity | discriminate
    | exact mockServer_partial | reflexivity | vm_compute; reflexivity
    | vm_compute; discriminate | vm_compute; reflexivity].
Defined.


Lemma relays_reject_bad_key_witness :
  @StreamFromByte test_aes [] sourceContent 26 [] test_iv
  = ([], Return (Some (KeySizeError (length (@nil byte))))).
Proof.
  apply (proj1 (@relays_reject_bad_key test_aes mockServer [] sourceContent [] test_iv 26
                  "http://mock" "bytes=6-25" not_valid_key_nil)).
Defined.


Lemma StreamFromByteWithRange_body_length_witness :
  Z.of_nat (length (http.body (http.response_of
              (fst (@StreamFromByteWithRange test_aes [] sourceContent 26 examplekey
                      (make 16) "bytes=5-20")))))
  = 16.
Proof.
  apply (@StreamFromByteWithRange_body_length test_aes sourceContent examplekey (make 16)
           26 "bytes=5-20" 5 16);
    [exact valid_examplekey | reflexivity | unfold is_int64; lia | vm_compute; discriminate
    | discriminate | vm_compute; reflexivity].
Defined.

Lemma aligned_ranges_reassemble_witness :
  http.body (http.response_of
    (fst (@StreamFromByteWithRange test_aes [] sourceContent 26 examplekey (make 16)
            "bytes=0-15")))
  ++ http.body (http.response_of
       (fst (@StreamFromByteWithRange test_aes [] sourceContent 26 examplekey (make 16)
               "bytes=16-25")))
  = http.body (http.response_of
      (fst (@StreamFromByteWithRange test_aes [] sourceContent 26 examplekey (make 16)
              "bytes=0-25"))).
Proof.
  apply (@aligned_ranges_reassemble test_aes sourceContent examplekey (make 16) 26
           "bytes=0-15" "bytes=16-25" "bytes=0-25" 0 15 25);
    [exact valid_examplekey | reflexivity | unfold is_int64; lia
    | exact single_range_form_0_15 | exact single_range_form_16_25
    | exact single_range_form_0_25 | lia | lia | lia | reflexivity | reflexivity
    | vm_compute; reflexivity].
Defined.
